(** * Placeholder inlining of the kickstart build scripts

    A shallow embedding of [replacePlaceholder] (kickstart-scripts/utility.mjs)
    together with the pieces of the JavaScript runtime it relies on: the
    backtracking matcher behind the global regular expression, the replace
    loop of [String.prototype.replace], [split], Node's [path.join] and the
    two file-system calls [existsSync] and [readFileSync].

    - Text is a list of UTF-16 code units.
    - [path.join] is the POSIX one (separator [/]), with its normalisation.
    - The file system is a finite table from paths to nodes, read only.
    - The call stack is finite: a call carries the number of nested calls
      of [replacePlaceholder] the stack still has room for, and a call
      beyond it throws a [RangeError], which the [try] of the replace
      callback around the recursive call catches like any other error.
      The errors handed to [showError] are collected in a log. *)

From Stdlib Require Import String Ascii.
From Stdlib Require Import List NArith Arith Bool Lia Relations.
Import ListNotations.

(** ** Text *)

(** A JavaScript string is a sequence of UTF-16 code units. *)
Definition code_unit := N.
Definition text := list code_unit.

(** Literals are written [str "..."]. *)
Definition str (s : string) : text :=
  map N_of_ascii (list_ascii_of_string s).

Definition text_eq_dec : forall a b : text, {a = b} + {a <> b} :=
  list_eq_dec N.eq_dec.

Definition text_eqb (a b : text) : bool :=
  if text_eq_dec a b then true else false.

(** ** Errors, results and the effects of a call *)

(** What a [throw] inside the [try] block can carry. *)
Inductive exn :=
| InvalidArgType            (* path.join given a non-string argument *)
| FsError (msg : text)      (* readFileSync failed *)
| RangeError.               (* Maximum call stack size exceeded *)

Inductive res (A : Type) :=
| Val (a : A)
| Exn (e : exn).
Arguments Val {A} a.
Arguments Exn {A} e.

(** A call of [replacePlaceholder] either finds no room on the call stack
    and throws [RangeError] before it has done anything ([None]), or
    returns a value together with the errors handed to [showError], oldest
    first. *)
Definition M (A : Type) := option (A * list exn).

Definition ret {A} (a : A) : M A := Some (a, []).

Definition bind {A B} (m : M A) (f : A -> M B) : M B :=
  match m with
  | None => None
  | Some (a, l) =>
      match f a with
      | None => None
      | Some (b, l') => Some (b, l ++ l')
      end
  end.

Notation "x <- m ;; f" := (bind m (fun x => f))
  (at level 61, m at next level, right associativity).

(** [showError]: the message goes to the console; the colouring done by
    chalk is presentation only. *)
Definition showError (error : exn) : M unit := Some (tt, [error]).

(** ** Regular expressions *)

(** The fragment of the regular-expression language the two patterns of
    [replacePlaceholder] use: literal characters, a greedy [{min,}]
    repetition of a single-character atom, sequence and alternation.
    Capture groups are left out: the replace callback only reads the whole
    match and the patterns have no back-references. *)
Inductive regex :=
| Lit (l : text)
| Many (min : nat) (p : code_unit -> bool)
| Seq (r1 r2 : regex)
| Alt (r1 r2 : regex).

Fixpoint drop_prefix (l s : text) : option text :=
  match l, s with
  | [], _ => Some s
  | a :: l', b :: s' => if N.eqb a b then drop_prefix l' s' else None
  | _ :: _, [] => None
  end.

(** Greedy repetition with backtracking: take one more character first and
    fall back to stopping here when the continuation fails further on. *)
Fixpoint many {A} (p : code_unit -> bool) (min : nat) (s : text)
    (k : text -> option A) : option A :=
  let stop := match min with O => k s | S _ => None end in
  match s with
  | c :: s' =>
      if p c then
        match many p (pred min) s' k with
        | Some x => Some x
        | None => stop
        end
      else stop
  | [] => stop
  end.

(** The backtracking matcher in continuation-passing style; [k] receives
    the text left after the match. *)
Fixpoint run {A} (r : regex) (s : text) (k : text -> option A) : option A :=
  match r with
  | Lit l =>
      match drop_prefix l s with
      | Some s' => k s'
      | None => None
      end
  | Many min p => many p min s k
  | Seq r1 r2 => run r1 s (fun s' => run r2 s' k)
  | Alt r1 r2 =>
      match run r1 s k with
      | Some x => Some x
      | None => run r2 s k
      end
  end.

(** A match attempt at the start of [s]: the matched text, if any. *)
Definition exec (r : regex) (s : text) : option text :=
  match run r s (fun rest => Some rest) with
  | Some rest => Some (firstn (length s - length rest) s)
  | None => None
  end.

(** *** The character sets *)

Definition in_range (lo hi c : N) : bool := N.leb lo c && N.leb c hi.

(** [\w] *)
Definition is_word (c : code_unit) : bool :=
  in_range 97 122 c || in_range 65 90 c || in_range 48 57 c || N.eqb c 95.

(** [[\w|\-]] *)
Definition is_category_char (c : code_unit) : bool :=
  is_word c || N.eqb c 124 || N.eqb c 45.

(** [.]: anything but a line terminator (LF, CR, U+2028, U+2029). *)
Definition is_dot (c : code_unit) : bool :=
  negb (N.eqb c 10 || N.eqb c 13 || N.eqb c 8232 || N.eqb c 8233).

(** *** The placeholder pattern

    [{(app|deferred|svg):{([\w|\-]{0,})}}|{(app|deferred|svg):{(.+):{(.+)}}}] *)

Definition kinds : regex :=
  Alt (Lit (str "app")) (Alt (Lit (str "deferred")) (Lit (str "svg"))).

Definition pattern_two : regex :=
  Seq (Lit (str "{")) (Seq kinds (Seq (Lit (str ":{"))
    (Seq (Many 0 is_category_char) (Lit (str "}}"))))).

Definition pattern_three : regex :=
  Seq (Lit (str "{")) (Seq kinds (Seq (Lit (str ":{"))
    (Seq (Many 1 is_dot) (Seq (Lit (str ":{"))
      (Seq (Many 1 is_dot) (Lit (str "}}}"))))))).

Definition placeholder : regex := Alt pattern_two pattern_three.

(** ** [String.prototype.replace] with a global pattern and a callback *)

(** The pieces of the subject: characters copied as they are, and matches. *)
Inductive piece :=
| Chr (c : code_unit)
| Tok (m : text).

(** The matches of a global pattern, left to right.  [skip] is the distance
    from the current position to [lastIndex]: the characters of the last
    match still to be passed over.  An empty match is recorded and the
    position advanced by one, as [replace] does. *)
Fixpoint scan (r : regex) (skip : nat) (s : text) : list piece :=
  match s with
  | [] =>
      match skip, exec r [] with
      | O, Some m => [Tok m]
      | _, _ => []
      end
  | c :: s' =>
      match skip with
      | S n => scan r n s'
      | O =>
          match exec r s with
          | Some [] => Tok [] :: Chr c :: scan r 0 s'
          | Some ((_ :: m') as m) => Tok m :: scan r (length m') s'
          | None => Chr c :: scan r 0 s'
          end
      end
  end.

(** The result text: every match replaced by what the callback returns. *)
Fixpoint subst (f : text -> M text) (ps : list piece) : M text :=
  match ps with
  | [] => ret []
  | Chr c :: ps' => rest <- subst f ps' ;; ret (c :: rest)
  | Tok m :: ps' => r <- f m ;; rest <- subst f ps' ;; ret (r ++ rest)
  end.

Definition replace (r : regex) (f : text -> M text) (s : text) : M text :=
  subst f (scan r 0 s).

(** [string.replace(new RegExp('(\{|\})*', 'g'), '')]: every run of braces,
    empty runs included, is replaced by nothing, which removes the braces
    and keeps the other characters. *)
Fixpoint strip_braces (s : text) : text :=
  match s with
  | [] => []
  | c :: s' =>
      if N.eqb c 123 || N.eqb c 125 then strip_braces s'
      else c :: strip_braces s'
  end.

(** [split(sep)] for a one-character separator. *)
Fixpoint split (sep : code_unit) (s : text) : list text :=
  match s with
  | [] => [[]]
  | c :: s' =>
      if N.eqb c sep then [] :: split sep s'
      else
        match split sep s' with
        | h :: t => (c :: h) :: t
        | [] => [[c]]
        end
  end.

(** ** Node's POSIX [path.join] *)

Definition slash : code_unit := 47%N.
Definition dot : code_unit := 46%N.

Fixpoint join_with (sep : text) (l : list text) : text :=
  match l with
  | [] => []
  | [a] => a
  | a :: l' => a ++ sep ++ join_with sep l'
  end.

(** [normalizeString], segment by segment; [out] holds the segments kept so
    far, last one first. *)
Fixpoint normalize_segments (allowAboveRoot : bool) (segs out : list text)
    : list text :=
  match segs with
  | [] => rev out
  | seg :: segs' =>
      if text_eqb seg [] || text_eqb seg [dot] then
        normalize_segments allowAboveRoot segs' out
      else if text_eqb seg [dot; dot] then
        match out with
        | last :: out' =>
            if text_eqb last [dot; dot] then
              normalize_segments allowAboveRoot segs'
                (if allowAboveRoot then seg :: out else out)
            else normalize_segments allowAboveRoot segs' out'
        | [] =>
            normalize_segments allowAboveRoot segs'
              (if allowAboveRoot then [seg] else [])
        end
      else normalize_segments allowAboveRoot segs' (seg :: out)
  end.

Definition normalize (path : text) : text :=
  match path with
  | [] => [dot]
  | first :: _ =>
      let isAbsolute := N.eqb first slash in
      let trailingSeparator := N.eqb (last path 0%N) slash in
      let p := join_with [slash]
                 (normalize_segments (negb isAbsolute) (split slash path) []) in
      match p with
      | [] =>
          if isAbsolute then [slash]
          else if trailingSeparator then [dot; slash] else [dot]
      | _ =>
          let p := if trailingSeparator then p ++ [slash] else p in
          if isAbsolute then slash :: p else p
      end
  end.

(** Arguments are JavaScript values: a string, or [undefined] ([None]). *)
Fixpoint validate_strings (args : list (option text)) : res (list text) :=
  match args with
  | [] => Val []
  | None :: _ => Exn InvalidArgType
  | Some a :: args' =>
      match validate_strings args' with
      | Val l => Val (a :: l)
      | Exn e => Exn e
      end
  end.

Definition nonempty (a : text) : bool :=
  match a with [] => false | _ => true end.

Definition path_join (args : list (option text)) : res text :=
  match validate_strings args with
  | Exn e => Exn e
  | Val l =>
      match filter nonempty l with
      | [] => Val [dot]
      | parts => Val (normalize (join_with [slash] parts))
      end
  end.

(** ** The file system *)

(** What a path names: a file with its text, or something that exists but
    cannot be read as a file (a directory, a file without read permission);
    [msg] is the error [readFileSync] throws for it. *)
Inductive node :=
| File (content : text)
| Unreadable (msg : text).

Definition filesystem := list (text * node).

Fixpoint lookup (fs : filesystem) (p : text) : option node :=
  match fs with
  | [] => None
  | (q, n) :: fs' => if text_eqb q p then Some n else lookup fs' p
  end.

Definition existsSync (fs : filesystem) (p : text) : bool :=
  match lookup fs p with Some _ => true | None => false end.

Definition readFileSync (fs : filesystem) (p : text) : res text :=
  match lookup fs p with
  | Some (File c) => Val c
  | Some (Unreadable msg) => Exn (FsError msg)
  | None => Exn (FsError (str "ENOENT"))
  end.

(** ** [replacePlaceholder] *)

(** [undefined + extension] *)
Definition to_string (v : option text) : text :=
  match v with Some t => t | None => str "undefined" end.

(** The parts of a token: [string.replace(...).split(':')]. *)
Definition token_parts (string : text) : list text :=
  split 58%N (strip_braces string).

Definition token_type (string : text) : text := nth 0 (token_parts string) [].

Definition token_folder (string : text) : option text :=
  nth_error (token_parts string) 1.

Definition token_file (string : text) : option text :=
  if Nat.ltb 2 (length (token_parts string))
  then nth_error (token_parts string) 2
  else token_folder string.

Definition isSvg (string : text) : bool :=
  text_eqb (token_type string) (str "svg").

Definition extension (string : text) : text :=
  if isSvg string then str ".svg" else str ".html".

(** [type = type !== 'app' ? 'app/_' + type : type] *)
Definition mapped_type (type : text) : text :=
  if negb (text_eqb type (str "app")) then str "app/_" ++ type else type.

Definition filepath (string : text) : res text :=
  path_join [Some (str "components");
             Some (mapped_type (token_type string));
             token_folder string;
             Some (to_string (token_file string) ++ extension string)].

Definition newline : code_unit := 10%N.

Definition banner_start (string p : text) : text :=
  if isSvg string then str "<!-- START " ++ p ++ str " -->" ++ [newline]
  else [].

Definition banner_end (string p : text) : text :=
  if isSvg string then str "<!-- END " ++ p ++ str " -->" ++ [newline]
  else [].

(** The body of the [try] block up to its [return]: [Val (Some c)] when the
    fragment exists and [c] is the text handed to the recursive call,
    [Val None] when the path does not exist, [Exn e] when a call threw. *)
Definition fragment (fs : filesystem) (string : text) : res (option text) :=
  match filepath string with
  | Exn e => Exn e
  | Val p =>
      if existsSync fs p then
        match readFileSync fs p with
        | Exn e => Exn e
        | Val fileContent =>
            Val (Some (banner_start string p ++ fileContent
                       ++ banner_end string p))
        end
      else Val None
  end.

(** The replace callback; [self] is the recursive call.  The recursive
    call stands inside the [try] as well, so a [RangeError] it throws is
    caught, handed to [showError], and the token is returned. *)
Definition callback (fs : filesystem) (self : text -> M text)
    (string : text) : M text :=
  match fragment fs string with
  | Val (Some fileContent) =>
      match self fileContent with
      | Some result => Some result
      | None => _ <- showError RangeError ;; ret string
      end
  | Val None => ret string
  | Exn error => _ <- showError error ;; ret string
  end.

(** [depth] is the number of nested calls of [replacePlaceholder] the call
    stack has room for; a call that finds none throws [RangeError]. *)
Fixpoint replacePlaceholder (depth : nat) (fs : filesystem) (content : text)
    : M text :=
  match depth with
  | O => None
  | S d => replace placeholder (callback fs (replacePlaceholder d fs)) content
  end.

(** ** Specification vocabulary *)

(** The language of a pattern, independently of the matcher's search order. *)
Inductive matches : regex -> text -> Prop :=
| matches_Lit l : matches (Lit l) l
| matches_Many min p w :
    forallb p w = true -> min <= length w -> matches (Many min p) w
| matches_Seq r1 r2 a b :
    matches r1 a -> matches r2 b -> matches (Seq r1 r2) (a ++ b)
| matches_AltL r1 r2 w : matches r1 w -> matches (Alt r1 r2) w
| matches_AltR r1 r2 w : matches r2 w -> matches (Alt r1 r2) w.

(** The three kinds. *)
Definition kind_names : list text := [str "app"; str "deferred"; str "svg"].

(** [{kind:{category}}] *)
Definition token2 (kind category : text) : text :=
  str "{" ++ kind ++ str ":{" ++ category ++ str "}}".

(** [{kind:{category:{name}}}], the three-part form of the pattern. *)
Definition token3 (kind category name : text) : text :=
  str "{" ++ kind ++ str ":{" ++ category ++ str ":{" ++ name ++ str "}}}".

(** A non-empty run of word characters. *)
Definition word (w : text) : Prop := forallb is_word w = true /\ w <> [].

(** A text without the character [sep]. *)
Definition free_of (sep : code_unit) (w : text) : Prop :=
  forallb (fun x => negb (N.eqb x sep)) w = true.

(** A path segment that [normalize] keeps as it is. *)
Definition plain (seg : text) : Prop :=
  seg <> [] /\ seg <> [dot] /\ seg <> [dot; dot] /\ free_of slash seg.

(** The subject text a list of pieces was cut from. *)
Fixpoint flatten (ps : list piece) : text :=
  match ps with
  | [] => []
  | Chr c :: ps' => c :: flatten ps'
  | Tok m :: ps' => m ++ flatten ps'
  end.

(** The tokens [replacePlaceholder] finds in a text. *)
Definition is_token (s m : text) : Prop := In (Tok m) (scan placeholder 0 s).

(** The fragment-inclusion graph: an edge leads from a text to each text
    its callback hands to the recursive call, that is, to the (bannered)
    content of every fragment one of its tokens names and that can be
    read. *)
Definition includes (fs : filesystem) (s s' : text) : Prop :=
  exists m, is_token s m /\ fragment fs m = Val (Some s').

(** A path of the graph from [s] to [y]; [l] lists the texts visited after
    [s], so its length is the number of edges. *)
Inductive chain (fs : filesystem) : text -> list text -> text -> Prop :=
| chain_nil s : chain fs s [] s
| chain_cons s s' l y :
    includes fs s s' -> chain fs s' l y -> chain fs s (s' :: l) y.

(** A cycle can be reached from [s]. *)
Definition cyclic (fs : filesystem) (s : text) : Prop :=
  exists x, clos_refl_trans text (includes fs) s x
            /\ clos_trans text (includes fs) x x.

(** Every text a recursive call can be made on. *)
Definition fragment_texts (fs : filesystem) : list text :=
  flat_map (fun e =>
    match snd e with
    | File c =>
        [c; (str "<!-- START " ++ fst e ++ str " -->" ++ [newline]) ++ c
              ++ (str "<!-- END " ++ fst e ++ str " -->" ++ [newline])]
    | Unreadable _ => []
    end) fs.

(** The fragment path in the words of the specification: the base
    directory, the mapped kind, the category, and the name (or the category
    when there is no name) followed by the extension. *)
Definition spec_fragment_path (kind category : text) (name : option text)
    : res text :=
  path_join
    [Some (str "components");
     Some (if text_eqb kind (str "app") then kind else str "app/_" ++ kind);
     Some category;
     Some (match name with Some n => n | None => category end
           ++ (if text_eqb kind (str "svg") then str ".svg" else str ".html"))].

(** The banner in the words of the specification: the two comments alone
    around the content. *)
Definition spec_svg_banner (p content : text) : text :=
  str "<!-- START " ++ p ++ str " -->" ++ content
  ++ str "<!-- END " ++ p ++ str " -->".

(** The three-part token as the specification writes it:
    [{kind:{category}:{name}}]. *)
Definition spec_token3 (kind category name : text) : text :=
  str "{" ++ kind ++ str ":{" ++ category ++ str "}:{" ++ name ++ str "}}".

(** ** Sample file systems *)

(** Fragment [a] includes fragment [b]. *)
Definition fs_nested : filesystem :=
  [(str "components/app/a/a.html", File (str "{app:{b}}"));
   (str "components/app/b/b.html", File (str "Y"))].

(** Fragments [a] and [b] include each other. *)
Definition fs_cycle : filesystem :=
  [(str "components/app/a/a.html", File (str "{app:{b}}"));
   (str "components/app/b/b.html", File (str "{app:{a}}"))].

Definition fs_icon : filesystem :=
  [(str "components/app/_svg/icon/icon.svg", File (str "<svg/>"))].

Definition fs_cat_name : filesystem :=
  [(str "components/app/cat/name.html", File (str "X"))].

(** [bad.html] is a directory. *)
Definition fs_faulty : filesystem :=
  [(str "components/app/bad/bad.html", Unreadable (str "EISDIR"));
   (str "components/app/b/b.html", File (str "Z"))].

(** Fragment [a] opens a token that the content of [c] closes. *)
Definition fs_glue : filesystem :=
  [(str "components/app/a/a.html", File (str "{app:{{app:{c}}"));
   (str "components/app/c/c.html", File (str "b}}"));
   (str "components/app/b/b.html", File (str "Z"))].

(** ** Console helpers of utility.mjs *)

(** The chalk styles the scripts use.  What a style does to a text depends
    on the terminal, so the styles are parameters. *)
Record chalk := {
  white : text -> text;
  cyan : text -> text;
  green_underline : text -> text;
  red : text -> text
}.

Definition messageStartTask : text := str ">>> Running task".
Definition messageEndTask : text := str "<<< Finished task".
Definition messageAbortTask : text := str ">>> Aborting task".

(** [line.startsWith(prefix)] *)
Definition startsWith (line prefix : text) : bool :=
  match drop_prefix prefix line with
  | Some _ => true
  | None => false
  end.

(** The callback of [lines.map] in [recolorScriptInfo]. *)
Definition recolorLine (ch : chalk) (line : text) : text :=
  if startsWith line messageStartTask || startsWith line messageEndTask
  then green_underline ch line
  else if startsWith line messageAbortTask then red ch line
  else line.

(** [recolorScriptInfo]; [None] is a message that is [undefined] or
    [null]. *)
Definition recolorScriptInfo (ch : chalk) (message : option text) : text :=
  match message with
  | None => []
  | Some [] => []
  | Some m => join_with [newline] (map (recolorLine ch) (split newline m))
  end.

(** An entry of [configConsole]. *)
Record console_mode := { verbose : bool; quiet : bool }.

Definition configConsole_dev : console_mode :=
  {| verbose := true; quiet := false |}.
Definition configConsole_prod : console_mode :=
  {| verbose := false; quiet := false |}.

Definition tab : code_unit := 9%N.

(** [showFileInfo], given the entry [configConsole[mode]]: the line handed
    to [console.info], if any. *)
Definition showFileInfo (ch : chalk) (cfg : console_mode)
    (filepath operation destFilepath : text) : option text :=
  if negb (quiet cfg) && verbose cfg then
    Some
      (if text_eqb operation (str "message") then
         white ch (tab :: str "+++ " ++ filepath)
       else if text_eqb operation (str "proceed") then
         white ch (tab :: str "Proceed file ") ++ cyan ch filepath
       else if text_eqb operation (str "copy") then
         white ch (tab :: str "Copy file to ") ++ cyan ch filepath
       else if text_eqb operation (str "writeto") then
         white ch (tab :: str "Write ") ++ cyan ch filepath
         ++ white ch [8594%N] ++ cyan ch destFilepath
       else if text_eqb operation (str "write") then
         white ch (tab :: str "Write file to ") ++ cyan ch filepath
       else if text_eqb operation (str "sourcemap") then
         white ch (tab :: str "Sourcemap generated to ") ++ cyan ch filepath
       else if text_eqb operation (str "change") then
         white ch (tab :: str "File changed: ") ++ cyan ch filepath
       else
         white ch (tab :: str "Did something with ") ++ cyan ch filepath)
  else None.

(** ** [getMediaQuery] *)

(** [media_query.replace(regex, '')] with the global class of the single
    quote (39), the double quote (34) and the comma (44): each of them is
    replaced by nothing. *)
Fixpoint strip_quotes (s : text) : text :=
  match s with
  | [] => []
  | c :: s' =>
      if N.eqb c 39 || N.eqb c 34 || N.eqb c 44 then strip_quotes s'
      else c :: strip_quotes s'
  end.

(** What a call does: it returns a value, or a [TypeError] is thrown. *)
Inductive outcome (A : Type) :=
| Returned (a : A)
| TypeError.
Arguments Returned {A} a.
Arguments TypeError {A}.

(** [fontFamily] is the computed font family of the document element, or
    [None] when [window.getComputedStyle] is missing, which leaves
    [media_query] undefined. *)
Definition getMediaQuery (fontFamily : option text) : outcome text :=
  match fontFamily with
  | Some media_query => Returned (strip_quotes media_query)
  | None => TypeError
  end.

(** ** File names in the tasks *)

(** [s.replace(pattern, replacement)] for a string pattern and a replacement
    without [$]: the first occurrence is replaced. *)
Fixpoint replace_first (pattern replacement s : text) : text :=
  match drop_prefix pattern s with
  | Some rest => replacement ++ rest
  | None =>
      match s with
      | [] => []
      | c :: s' => c :: replace_first pattern replacement s'
      end
  end.

(** [s.includes(pattern)] *)
Fixpoint text_includes (s pattern : text) : bool :=
  match drop_prefix pattern s with
  | Some _ => true
  | None =>
      match s with
      | [] => false
      | _ :: s' => text_includes s' pattern
      end
  end.

(** A search for [/lit$/], as in [file.match(/\.html$/)] and
    [file.search(/\.scss$/) >= 0]: the leftmost position where the literal
    matches and the input ends. *)
Fixpoint search_at_end (lit s : text) : bool :=
  match run (Lit lit) s
          (fun rest => match rest with [] => Some tt | _ :: _ => None end) with
  | Some _ => true
  | None =>
      match s with
      | [] => false
      | _ :: s' => search_at_end lit s'
      end
  end.

(** compileSass: [hasFileCorrectExtension] and the name of the css file. *)
Definition hasFileCorrectExtension (file : text) : bool :=
  search_at_end (str ".scss") file.

Definition css_filename (file : text) : text :=
  replace_first (str "scss") (str "css") file.

(** svgSprite: [file.split('.').slice(0, -1).join('.')] *)
Definition spriteItemId (file : text) : text :=
  join_with [dot] (removelast (split dot file)).

(** ** [replaceHtml] *)

(** [fs.writeFileSync]: the file system after the call and the error it
    throws, if any.  Whether a write succeeds depends on directories and
    permissions the table of files does not hold, so the call is a
    parameter. *)
Definition writer := filesystem -> text -> text -> filesystem * option exn.

(** The state a run works on: the files, the errors handed to [showError]
    and the lines handed to [console.info]. *)
Record run_state := {
  files : filesystem;
  reported : list exn;
  printed : list text
}.

(** The callback of [forEach] for one entry of the working directory:
    the state it leaves and the error it throws, if any; a [RangeError]
    of the call of [replacePlaceholder] is thrown on like the others.
    [depth] is the room on the call stack, as for [replacePlaceholder]. *)
Definition replaceHtml_file (write : writer) (ch : chalk) (cfg : console_mode)
    (depth : nat) (pathBuild pathWorking file : text) (st : run_state)
    : option (run_state * option exn) :=
  if search_at_end (str ".html") file then
    match path_join [Some pathWorking; Some file],
          path_join [Some pathBuild; Some file] with
    | Val fileSource, Val fileDestination =>
        match readFileSync (files st) fileSource with
        | Exn error => Some (st, Some error)
        | Val htmlCode =>
            match replacePlaceholder depth (files st) htmlCode with
            | None => Some (st, Some RangeError)
            | Some (htmlCode', errors) =>
                let line :=
                  match showFileInfo ch cfg fileSource (str "writeto")
                          fileDestination with
                  | Some l => [l]
                  | None => []
                  end in
                let (files', thrown) :=
                  write (files st) fileDestination htmlCode' in
                Some ({| files := files';
                         reported := reported st ++ errors;
                         printed := printed st ++ line |}, thrown)
            end
        end
    | Exn error, _ => Some (st, Some error)
    | _, Exn error => Some (st, Some error)
    end
  else Some (st, None).

(** [forEach] over the entries; a throw ends it. *)
Fixpoint replaceHtml_files (write : writer) (ch : chalk) (cfg : console_mode)
    (depth : nat) (pathBuild pathWorking : text) (listing : list text)
    (st : run_state) : option (run_state * option exn) :=
  match listing with
  | [] => Some (st, None)
  | file :: rest =>
      match replaceHtml_file write ch cfg depth pathBuild pathWorking file st
      with
      | None => None
      | Some (st', Some error) => Some (st', Some error)
      | Some (st', None) =>
          replaceHtml_files write ch cfg depth pathBuild pathWorking rest st'
      end
  end.

Inductive settled :=
| Resolved
| Rejected (error : exn).

(** The promise of [replaceHtml]; [readdir] is what
    [fs.readdirSync(pathWorking)] gives. *)
Definition replaceHtml (write : writer) (ch : chalk) (cfg : console_mode)
    (depth : nat) (pathBuild pathWorking : text) (readdir : res (list text))
    (fs : filesystem) : option (run_state * settled) :=
  let start := {| files := fs; reported := []; printed := [] |} in
  match readdir with
  | Exn error => Some (start, Rejected error)
  | Val listing =>
      match replaceHtml_files write ch cfg depth pathBuild pathWorking
              listing start with
      | None => None
      | Some (st, None) => Some (st, Resolved)
      | Some (st, Some error) => Some (st, Rejected error)
      end
  end.

(** A writer that always succeeds, for examples. *)
Definition write_table : writer :=
  fun fs p content => ((p, File content) :: fs, None).

Definition plain_chalk : chalk :=
  {| white := fun t => t; cyan := fun t => t;
     green_underline := fun t => t; red := fun t => t |}.

(** Styles as escape sequences around the text, for examples. *)
Definition escape (code : string) : text := 27%N :: str code.

Definition ansi_chalk : chalk :=
  {| white := fun t => escape "[37m" ++ t ++ escape "[39m";
     cyan := fun t => escape "[36m" ++ t ++ escape "[39m";
     green_underline := fun t =>
       escape "[32m" ++ escape "[4m" ++ t ++ escape "[24m" ++ escape "[39m";
     red := fun t => escape "[31m" ++ t ++ escape "[39m" |}.

(** ** Directory listings of utility.mjs *)

(** The two calls into [fs] the listings make: [fs.readdirSync(source)]
    with the names of the entries, and [fs.lstatSync(source).isDirectory()];
    either can throw. *)
Record dir_api := {
  readdirSync : text -> res (list text);
  lstat_isDirectory : text -> res bool
}.

Definition isDirectory (api : dir_api) (source : text) : res bool :=
  lstat_isDirectory api source.

(** [.map(f)] for a callback that can throw. *)
Fixpoint map_res {A B : Type} (f : A -> res B) (l : list A) : res (list B) :=
  match l with
  | [] => Val []
  | x :: l' =>
      match f x with
      | Exn e => Exn e
      | Val y =>
          match map_res f l' with
          | Exn e => Exn e
          | Val ys => Val (y :: ys)
          end
      end
  end.

(** [.filter(f)] for a callback that can throw. *)
Fixpoint filter_res {A : Type} (f : A -> res bool) (l : list A)
    : res (list A) :=
  match l with
  | [] => Val []
  | x :: l' =>
      match f x with
      | Exn e => Exn e
      | Val keep =>
          match filter_res f l' with
          | Exn e => Exn e
          | Val r => Val (if keep then x :: r else r)
          end
      end
  end.

Definition getDirectories (api : dir_api) (source : text) : res (list text) :=
  match readdirSync api source with
  | Exn e => Exn e
  | Val names =>
      match map_res (fun name => path_join [Some source; Some name]) names
      with
      | Exn e => Exn e
      | Val paths => filter_res (isDirectory api) paths
      end
  end.

(** [.map(getDirectoriesRecursive)]: the calls one after the other; a call
    that throws or does not return ends the row. *)
Fixpoint map_calls (f : text -> option (res (list text))) (l : list text)
    : option (res (list (list text))) :=
  match l with
  | [] => Some (Val [])
  | x :: l' =>
      match f x with
      | None => None
      | Some (Exn e) => Some (Exn e)
      | Some (Val r) =>
          match map_calls f l' with
          | None => None
          | Some (Exn e) => Some (Exn e)
          | Some (Val rs) => Some (Val (r :: rs))
          end
      end
  end.

(** [depth] bounds the nesting of the recursive calls; a call that would
    need more yields [None]. *)
Fixpoint getDirectoriesRecursive (api : dir_api) (depth : nat) (source : text)
    : option (res (list text)) :=
  match depth with
  | O => None
  | S d =>
      match getDirectories api source with
      | Exn e => Some (Exn e)
      | Val dirs =>
          match map_calls (getDirectoriesRecursive api d) dirs with
          | None => None
          | Some (Exn e) => Some (Exn e)
          | Some (Val lists) =>
              Some (Val (source ::
                         fold_left (fun accumulator current_Value =>
                                      accumulator ++ current_Value)
                           lists []))
          end
      end
  end.

(** [child] is one of the directories [getDirectories] finds in
    [parent]. *)
Definition subdirectory (api : dir_api) (parent child : text) : Prop :=
  exists dirs, getDirectories api parent = Val dirs /\ In child dirs.

(** A small tree for examples: [src] holds the directories [a] and [b]
    and a file, [a] holds the directory [c]. *)
Definition sample_tree : dir_api :=
  {| readdirSync := fun p =>
       if text_eqb p (str "src") then Val [str "a"; str "x.js"; str "b"]
       else if text_eqb p (str "src/a") then Val [str "c"]
       else if text_eqb p (str "src/b") then Val []
       else if text_eqb p (str "src/a/c") then Val []
       else Exn (FsError (str "ENOTDIR"));
     lstat_isDirectory := fun p =>
       Val (text_eqb p (str "src") || text_eqb p (str "src/a")
            || text_eqb p (str "src/b") || text_eqb p (str "src/a/c")) |}.

(** ** The change handler of livereload.mjs *)

(** [configWatch] of config.mjs: the extensions that start each build
    task, in the order of the keys. *)
Definition configWatch : list (text * list text) :=
  [(str "css", [str "scss"]);
   (str "html", [str "html"]);
   (str "js", [str "js"])].

(** [s.lastIndexOf(c)]; [None] stands for -1. *)
Fixpoint lastIndexOf (c : code_unit) (s : text) : option nat :=
  match s with
  | [] => None
  | x :: s' =>
      match lastIndexOf c s' with
      | Some i => Some (S i)
      | None => if N.eqb x c then Some 0 else None
      end
  end.

(** [filepath.substring(filepath.lastIndexOf('.') + 1).toLowerCase()];
    lower-casing follows the Unicode tables and is a parameter. *)
Definition changed_extension (toLowerCase : text -> text) (filepath : text)
    : text :=
  toLowerCase
    (skipn (match lastIndexOf dot filepath with
            | Some i => S i
            | None => 0
            end) filepath).

(** [triggerNodeScript]: the commands handed to [child_process.exec], in
    order, and the line printed at the end. *)
Definition triggerNodeScript (toLowerCase : text -> text) (ch : chalk)
    (filepath : text) : list text * option text :=
  (if text_includes filepath (str "deferred") then
     [str "npm run build:statics"]
   else
     let extension := changed_extension toLowerCase filepath in
     flat_map
       (fun entry =>
          let buildTask := fst entry in
          let correspondingExtensions := snd entry in
          if existsb (text_eqb extension) correspondingExtensions then
            [str "npm run build:"
             ++ (if text_eqb buildTask (str "js")
                 then buildTask ++ str ":watch" else buildTask)]
          else [])
       configWatch,
   showFileInfo ch configConsole_dev filepath (str "change") []).

(** ** The destination of a copied file (copyStatics) *)

(** [destinationFilePath] for an entry that fast-glob found: with
    [flatten] the entry's last segment ([split('/').pop()]) is joined to
    the destination directory, otherwise the whole entry. *)
Definition destinationFilePath (flatten : bool) (destinationDir fileEntry : text)
    : res text :=
  if flatten then
    path_join [Some destinationDir; Some (last (split slash fileEntry) [])]
  else path_join [Some destinationDir; Some fileEntry].

(** [destinationDirPath], the directory that is created before the copy. *)
Definition destinationDirPath (flatten : bool) (destinationDir fileEntry : text)
    : res text :=
  if flatten then Val destinationDir
  else
    path_join [Some destinationDir;
               Some (join_with [slash] (removelast (split slash fileEntry)))].

(** ** Docker and WSL detection of utility.mjs *)

(** What the checks read from the machine: [process.platform],
    [os.release()], whether [fs.statSync] succeeds on a path, and
    [fs.readFileSync]. *)
Record host := {
  platform : text;
  os_release : text;
  stat_succeeds : text -> bool;
  read_file : text -> res text
}.

Definition hasDockerEnv (h : host) : bool :=
  stat_succeeds h (str "/.dockerenv").

Definition hasDockerCGroup (h : host) : bool :=
  match read_file h (str "/proc/self/cgroup") with
  | Val content => text_includes content (str "docker")
  | Exn _ => false
  end.

Definition isDocker (h : host) : bool := hasDockerEnv h || hasDockerCGroup h.

Definition isWsl (toLowerCase : text -> text) (h : host) : bool :=
  if negb (text_eqb (platform h) (str "linux")) then false
  else if text_includes (toLowerCase (os_release h)) (str "microsoft") then
    if isDocker h then false else true
  else
    match read_file h (str "/proc/version") with
    | Val version =>
        if text_includes (toLowerCase version) (str "microsoft")
        then negb (isDocker h) else false
    | Exn _ => false
    end.

(** Lower-casing of the letters A to Z only, for examples. *)
Definition ascii_lower (s : text) : text :=
  map (fun c => if in_range 65 90 c then (c + 32)%N else c) s.

(** ** Timers, debounce and throttle *)

(** The timers of the page: [setTimeout] hands out a fresh handle and
    keeps the callback with the time from which it may run;
    [clearTimeout] forgets the timer of a handle and ignores [null]. A
    callback is described by the data it closes over. *)
Record timers (A : Type) := {
  next_handle : nat;
  waiting : list (nat * (N * A))
}.
Arguments next_handle {A} _.
Arguments waiting {A} _.

Definition no_timers {A : Type} : timers A :=
  {| next_handle := 1; waiting := [] |}.

Definition setTimeout {A : Type} (ts : timers A) (now delay : N) (callback : A)
    : nat * timers A :=
  (next_handle ts,
   {| next_handle := S (next_handle ts);
      waiting := waiting ts ++ [(next_handle ts, (now + delay, callback)%N)] |}).

Definition clearTimeout {A : Type} (ts : timers A) (handle : option nat)
    : timers A :=
  match handle with
  | None => ts
  | Some h =>
      {| next_handle := next_handle ts;
         waiting := filter (fun t => negb (Nat.eqb (fst t) h)) (waiting ts) |}
  end.

(** The callback of a handle, once its time has come. *)
Definition expired {A : Type} (ts : timers A) (now : N) (h : nat) : option A :=
  match find (fun t => Nat.eqb (fst t) h) (waiting ts) with
  | Some (_, (due, callback)) => if (due <=? now)%N then Some callback else None
  | None => None
  end.

(** What happens to a debounced or throttled function: it is invoked at
    some time with some arguments, or the page runs the timer of a
    handle. *)
Inductive event (A : Type) :=
  | Invoke (now : N) (args : A)
  | Fire (now : N) (handle : nat).
Arguments Invoke {A} _ _.
Arguments Fire {A} _ _.

(** The closure of [debounce]: its variable [timer], the page's timers
    and the calls of [func] so far, each with its time and arguments. *)
Record debounced (A : Type) := {
  timer : option nat;
  debounce_timers : timers A;
  debounce_calls : list (N * A)
}.
Arguments timer {A} _.
Arguments debounce_timers {A} _.
Arguments debounce_calls {A} _.

Definition debounce {A : Type} : debounced A :=
  {| timer := None; debounce_timers := no_timers; debounce_calls := [] |}.

Definition debounce_step {A : Type} (delay : N) (st : debounced A)
    (ev : event A) : debounced A :=
  match ev with
  | Invoke now ARGS =>
      let ts := clearTimeout (debounce_timers st) (timer st) in
      let (h, ts') := setTimeout ts now delay ARGS in
      {| timer := Some h; debounce_timers := ts';
         debounce_calls := debounce_calls st |}
  | Fire now h =>
      match expired (debounce_timers st) now h with
      | Some ARGS =>
          {| timer := timer st;
             debounce_timers := clearTimeout (debounce_timers st) (Some h);
             debounce_calls := debounce_calls st ++ [(now, ARGS)] |}
      | None => st
      end
  end.

Definition debounce_run {A : Type} (delay : N) (events : list (event A))
    : debounced A :=
  fold_left (debounce_step delay) events debounce.

(** The closure of [throttle]: [last] ([None] while undefined),
    [defer_timer], the timers, whose callbacks close over [now] and
    [ARGS], and the calls of [func]. *)
Record throttled (A : Type) := {
  last_time : option N;
  defer_timer : option nat;
  throttle_timers : timers (N * A);
  throttle_calls : list (N * A)
}.
Arguments last_time {A} _.
Arguments defer_timer {A} _.
Arguments throttle_timers {A} _.
Arguments throttle_calls {A} _.

Definition throttle {A : Type} : throttled A :=
  {| last_time := None; defer_timer := None; throttle_timers := no_timers;
     throttle_calls := [] |}.

(** [last && now < last + threshold]: an undefined or zero [last] is
    falsy. *)
Definition within_threshold (last : option N) (now threshold : N) : bool :=
  match last with
  | Some l => negb (l =? 0)%N && (now <? l + threshold)%N
  | None => false
  end.

Definition throttle_step {A : Type} (threshold : N) (st : throttled A)
    (ev : event A) : throttled A :=
  match ev with
  | Invoke now ARGS =>
      if within_threshold (last_time st) now threshold then
        let ts := clearTimeout (throttle_timers st) (defer_timer st) in
        let (h, ts') := setTimeout ts now threshold (now, ARGS) in
        {| last_time := last_time st; defer_timer := Some h;
           throttle_timers := ts'; throttle_calls := throttle_calls st |}
      else
        {| last_time := Some now; defer_timer := defer_timer st;
           throttle_timers := throttle_timers st;
           throttle_calls := throttle_calls st ++ [(now, ARGS)] |}
  | Fire at_time h =>
      match expired (throttle_timers st) at_time h with
      | Some (now, ARGS) =>
          {| last_time := Some now; defer_timer := defer_timer st;
             throttle_timers := clearTimeout (throttle_timers st) (Some h);
             throttle_calls := throttle_calls st ++ [(at_time, ARGS)] |}
      | None => st
      end
  end.

Definition throttle_run {A : Type} (threshold : N) (events : list (event A))
    : throttled A :=
  fold_left (throttle_step threshold) events throttle.

(** The times of the events, which a real run sees in order. *)
Definition event_time {A : Type} (ev : event A) : N :=
  match ev with
  | Invoke now _ => now
  | Fire now _ => now
  end.

Fixpoint in_order (times : list N) : bool :=
  match times with
  | a :: ((b :: _) as rest) => (a <=? b)%N && in_order rest
  | _ => true
  end.

Definition is_invoke {A : Type} (ev : event A) : bool :=
  match ev with
  | Invoke _ _ => true
  | Fire _ _ => false
  end.

(** ** The monad and the replace loop *)


Lemma bind_ret_l A B (a : A) (f : A -> M B) : (x <- ret a ;; f x) = f a.
Proof. unfold bind, ret. destruct (f a) as [[b l]|]; reflexivity. Qed.

Lemma bind_ext A B (m : M A) (f g : A -> M B) :
  (forall a, f a = g a) -> bind m f = bind m g.
Proof. intros H. destruct m as [[a l]|]; simpl; auto. now rewrite H. Qed.

Lemma bind_assoc A B C (m : M A) (f : A -> M B) (g : B -> M C) :
  (y <- (x <- m ;; f x) ;; g y) = (x <- m ;; y <- f x ;; g y).
Proof.
  destruct m as [[a l]|]; simpl; auto.
  destruct (f a) as [[b l']|]; simpl; auto.
  destruct (g b) as [[c l'']|]; simpl; auto.
  now rewrite app_assoc.
Qed.

Lemma subst_app f ps1 ps2 :
  subst f (ps1 ++ ps2) =
  (a <- subst f ps1 ;; b <- subst f ps2 ;; ret (a ++ b)).
Proof.
  induction ps1 as [|[c|m] ps1 IH]; simpl.
  - destruct (subst f ps2) as [[b l]|]; simpl; auto. now rewrite app_nil_r.
  - rewrite IH. destruct (subst f ps1) as [[a l]|]; simpl; auto.
    destruct (subst f ps2) as [[b l']|]; simpl; auto.
    now rewrite !app_nil_r.
  - destruct (f m) as [[r lr]|]; simpl; auto. rewrite IH.
    destruct (subst f ps1) as [[a l]|]; simpl; auto.
    destruct (subst f ps2) as [[b l']|]; simpl; auto.
    now rewrite !app_nil_r, !app_assoc.
Qed.

Lemma subst_verbatim f ps :
  (forall m, In (Tok m) ps -> f m = ret m) -> subst f ps = ret (flatten ps).
Proof.
  induction ps as [|[c|m] ps IH]; simpl; intros H; auto.
  - rewrite IH by auto. reflexivity.
  - rewrite H by auto. rewrite IH by auto. reflexivity.
Qed.

(** The replace loop fails exactly when a callback does. *)
Lemma subst_None f ps :
  subst f ps = None -> exists m, In (Tok m) ps /\ f m = None.
Proof.
  induction ps as [|[c|m] ps IH]; simpl; try discriminate.
  - destruct (subst f ps) as [[a l]|] eqn:E; try discriminate.
    intros _. destruct IH as (m & Hin & Hm); eauto.
  - destruct (f m) as [[r lr]|] eqn:Em.
    + simpl. destruct (subst f ps) as [[a l]|] eqn:E; try discriminate.
      intros _. destruct IH as (m' & Hin & Hm); eauto.
    + intros _. exists m. auto.
Qed.

(** ** The matcher finds members of the pattern's language *)

Lemma drop_prefix_Some l s s' : drop_prefix l s = Some s' -> s = l ++ s'.
Proof.
  revert s. induction l as [|a l IH]; intros [|b s]; simpl; try discriminate.
  - now intros [= <-].
  - now intros [= <-].
  - destruct (N.eqb_spec a b) as [->|]; try discriminate.
    intros H. now rewrite (IH _ H).
Qed.

Lemma drop_prefix_app l s : drop_prefix l (l ++ s) = Some s.
Proof.
  induction l as [|a l IH]; simpl; auto. now rewrite N.eqb_refl.
Qed.

Lemma many_sound A p min s (k : text -> option A) x :
  many p min s k = Some x ->
  exists w rest, s = w ++ rest /\ forallb p w = true /\ min <= length w
                 /\ k rest = Some x.
Proof.
  revert min. induction s as [|c s IH]; intros min; simpl.
  - destruct min; try discriminate. intros H. exists [], []. auto.
  - assert (Hstop : match min with O => k (c :: s) | S _ => None end = Some x ->
              exists w rest, c :: s = w ++ rest /\ forallb p w = true
                             /\ min <= length w /\ k rest = Some x).
    { destruct min; try discriminate. intros H. exists [], (c :: s). auto. }
    destruct (p c) eqn:Hc; auto.
    destruct (many p (pred min) s k) as [y|] eqn:E; auto.
    intros [= <-]. destruct (IH _ E) as (w & rest & -> & Hw & Hlen & Hk).
    exists (c :: w), rest. simpl. rewrite Hc, Hw. repeat split; auto. lia.
Qed.

Lemma run_sound A r : forall s (k : text -> option A) x,
  run r s k = Some x ->
  exists w rest, s = w ++ rest /\ matches r w /\ k rest = Some x.
Proof.
  induction r as [l|min p|r1 IH1 r2 IH2|r1 IH1 r2 IH2]; simpl; intros s k x H.
  - destruct (drop_prefix l s) as [s'|] eqn:E; try discriminate.
    exists l, s'. split; [now apply drop_prefix_Some|]. split; [constructor|auto].
  - destruct (many_sound _ _ _ _ _ _ H) as (w & rest & -> & Hw & Hlen & Hk).
    exists w, rest. repeat split; auto. now constructor.
  - destruct (IH1 _ _ _ H) as (a & s1 & -> & Ha & H2).
    destruct (IH2 _ _ _ H2) as (b & rest & -> & Hb & Hk).
    exists (a ++ b), rest. rewrite app_assoc. repeat split; auto.
    now constructor.
  - destruct (run r1 s k) as [y|] eqn:E.
    + injection H as ->. destruct (IH1 _ _ _ E) as (w & rest & -> & Hw & Hk).
      exists w, rest. repeat split; auto. now apply matches_AltL.
    + destruct (IH2 _ _ _ H) as (w & rest & -> & Hw & Hk).
      exists w, rest. repeat split; auto. now apply matches_AltR.
Qed.

Lemma exec_sound r s m :
  exec r s = Some m -> matches r m /\ exists rest, s = m ++ rest.
Proof.
  unfold exec. destruct (run r s (fun rest => Some rest)) as [rest|] eqn:E;
    try discriminate.
  intros [= <-]. destruct (run_sound _ _ _ _ _ E) as (w & rest' & -> & Hw & [= ->]).
  rewrite length_app, Nat.add_sub, firstn_app, Nat.sub_diag, firstn_all.
  simpl. rewrite app_nil_r. eauto.
Qed.

Lemma exec_nil r m : exec r [] = Some m -> m = [].
Proof.
  intros H. destruct (exec_sound _ _ _ H) as (_ & rest & E).
  symmetry in E. now apply app_eq_nil in E.
Qed.

(** Conversely, where a member of the language starts, the matcher finds a
    match: [matches] is the language the matcher decides. *)
Lemma many_complete A p w rest (k : text -> option A) : forall min,
  forallb p w = true -> min <= length w -> k rest <> None ->
  many p min (w ++ rest) k <> None.
Proof.
  induction w as [|c w IH]; intros min Hw Hmin Hk.
  - replace min with 0 by (simpl in Hmin; lia). simpl.
    destruct rest as [|c rest]; simpl; auto.
    destruct (p c); auto. destruct (many p 0 rest k); auto.
    intros E. discriminate E.
  - simpl in *. apply andb_prop in Hw as [Hc Hw]. rewrite Hc.
    specialize (IH (pred min) Hw ltac:(lia) Hk).
    destruct (many p (pred min) (w ++ rest) k); [|congruence].
    intros E. discriminate E.
Qed.

Lemma run_complete A r w :
  matches r w ->
  forall rest (k : text -> option A),
    k rest <> None -> run r (w ++ rest) k <> None.
Proof.
  induction 1 as [l|min p w Hw Hmin|r1 r2 a b _ IH1 _ IH2
                  |r1 r2 w _ IH|r1 r2 w _ IH]; intros rest k Hk; simpl.
  - now rewrite drop_prefix_app.
  - now apply many_complete.
  - rewrite <- app_assoc. apply IH1. now apply IH2.
  - specialize (IH rest k Hk). destruct (run r1 (w ++ rest) k);
      [intros E; discriminate E|congruence].
  - destruct (run r1 (w ++ rest) k); [intros E; discriminate E|now apply IH].
Qed.

Lemma exec_iff r s :
  (exists m, exec r s = Some m) <->
  (exists w rest, s = w ++ rest /\ matches r w).
Proof.
  split.
  - intros (m & H). destruct (exec_sound _ _ _ H) as (Hm & rest & ->). eauto.
  - intros (w & rest & -> & Hw). unfold exec.
    pose proof (run_complete _ _ _ Hw rest (fun rest => Some rest)) as H.
    destruct (run r (w ++ rest) (fun rest => Some rest)); eauto.
    exfalso. apply H; [intros E; discriminate E|reflexivity].
Qed.

(** The pieces of a scan put together give the subject back. *)
Lemma flatten_scan r : forall s skip, flatten (scan r skip s) = skipn skip s.
Proof.
  induction s as [|c s IH]; intros skip; simpl.
  - destruct skip; simpl; auto.
    destruct (exec r []) as [m|] eqn:E; simpl; auto.
    rewrite (exec_nil _ _ E). reflexivity.
  - destruct skip as [|n]; simpl; auto.
    destruct (exec r (c :: s)) as [[|x m]|] eqn:E; simpl.
    + now rewrite IH.
    + rewrite IH. destruct (exec_sound _ _ _ E) as (_ & rest & Hs).
      simpl in Hs. injection Hs as <- ->.
      rewrite skipn_app, Nat.sub_diag, skipn_all. reflexivity.
    + now rewrite IH.
Qed.

(** Every token of a scan is a substring of the subject that the pattern
    matches. *)
Lemma scan_token r : forall s skip m,
  In (Tok m) (scan r skip s) ->
  matches r m /\ exists pre post, s = pre ++ m ++ post.
Proof.
  induction s as [|c s IH]; intros skip m; simpl.
  - destruct skip; [|contradiction].
    destruct (exec r []) as [m'|] eqn:E; [|contradiction].
    intros [[= <-]|[]]. destruct (exec_sound _ _ _ E) as (Hm & rest & Hs).
    split; auto. exists [], rest. auto.
  - assert (Hrec : forall n, In (Tok m) (scan r n s) ->
              matches r m /\ exists pre post, c :: s = pre ++ m ++ post).
    { intros n H. destruct (IH _ _ H) as (Hm & pre & post & ->).
      split; auto. exists (c :: pre), post. auto. }
    assert (Hhere : exec r (c :: s) = Some m ->
              matches r m /\ exists pre post, c :: s = pre ++ m ++ post).
    { intros E. destruct (exec_sound _ _ _ E) as (Hm & rest & Hs).
      split; auto. exists [], rest. auto. }
    destruct skip as [|n]; eauto.
    destruct (exec r (c :: s)) as [[|x m']|] eqn:E; simpl.
    + intros [[= <-]|[[=]|H]]; eauto.
    + intros [[= <-]|H]; eauto.
    + intros [[=]|H]; eauto.
Qed.

Lemma scan_skip_all r s :
  exec r [] = None -> scan r (length s) s = [].
Proof.
  intros E. induction s as [|c s IH]; simpl; auto. now rewrite E.
Qed.

(** A text that is matched as a whole is a single token. *)
Lemma scan_whole r s :
  exec r s = Some s -> exec r [] = None -> s <> [] -> scan r 0 s = [Tok s].
Proof.
  intros E E0 Hs. destruct s as [|c s]; [congruence|].
  simpl. rewrite E. now rewrite scan_skip_all.
Qed.

Lemma exec_whole r s :
  run r s (fun rest => Some rest) = Some [] -> exec r s = Some s.
Proof.
  unfold exec. intros ->. simpl. now rewrite Nat.sub_0_r, firstn_all.
Qed.

(** ** The call stack and the inclusion graph *)

Lemma subst_Chr_inv f c ps out log :
  subst f (Chr c :: ps) = Some (out, log) ->
  exists a, subst f ps = Some (a, log) /\ out = c :: a.
Proof.
  simpl. destruct (subst f ps) as [[a l]|]; [|discriminate].
  simpl. rewrite app_nil_r. intros [= <- <-]. eauto.
Qed.

Lemma subst_Tok_inv f m ps out log :
  subst f (Tok m :: ps) = Some (out, log) ->
  exists r lr a la,
    f m = Some (r, lr) /\ subst f ps = Some (a, la) /\
    out = r ++ a /\ log = lr ++ la.
Proof.
  simpl. destruct (f m) as [[r lr]|]; [|discriminate]. simpl.
  destruct (subst f ps) as [[a la]|]; [|discriminate].
  simpl. rewrite app_nil_r. intros [= <- <-]. eauto 10.
Qed.

(** An error is in the log of the replace loop exactly when a callback
    reported it. *)
Lemma subst_log_In f e : forall ps out log,
  subst f ps = Some (out, log) ->
  (In e log <-> exists m r l, In (Tok m) ps /\ f m = Some (r, l) /\ In e l).
Proof.
  induction ps as [|[c|m] ps IH]; intros out log H.
  - injection H as <- <-. split; [intros []|intros (m & r & l & [] & _)].
  - apply subst_Chr_inv in H as (a & H & ->). rewrite (IH _ _ H).
    split; intros (m & r & l & Hin & Hr); exists m, r, l.
    + split; [now right|assumption].
    + destruct Hin as [Hin|Hin]; [discriminate Hin|now split].
  - apply subst_Tok_inv in H as (r & lr & a & la & Hm & H & -> & ->).
    rewrite in_app_iff, (IH _ _ H). split.
    + intros [Hin|(m' & r' & l' & Hin & Hr)].
      * exists m, r, lr. split; [now left|now split].
      * exists m', r', l'. split; [now right|assumption].
    + intros (m' & r' & l' & [Hin|Hin] & Hf & Hl).
      * injection Hin as <-. rewrite Hm in Hf. injection Hf as <- <-.
        now left.
      * right. now exists m', r', l'.
Qed.

(** The callback catches whatever its body throws. *)
Lemma callback_returns fs self m : callback fs self m <> None.
Proof.
  unfold callback. destruct (fragment fs m) as [[c|]|e]; try discriminate.
  destruct (self c) as [[r l]|]; discriminate.
Qed.

(** With room for one call on the stack, a call returns. *)
Lemma replacePlaceholder_returns fs d s :
  exists out log, replacePlaceholder (S d) fs s = Some (out, log).
Proof.
  destruct (replacePlaceholder (S d) fs s) as [[out log]|] eqn:E; eauto.
  exfalso.
  change (subst (callback fs (replacePlaceholder d fs))
            (scan placeholder 0 s) = None) in E.
  destruct (subst_None _ _ E) as (m & _ & Hm).
  exact (callback_returns _ _ _ Hm).
Qed.

Lemma replacePlaceholder_None fs d s :
  replacePlaceholder d fs s = None -> d = 0.
Proof.
  destruct d as [|d]; [reflexivity|].
  destruct (replacePlaceholder_returns fs d s) as (out & log & ->).
  discriminate.
Qed.

(** The calls in the body of the [try] throw errors of their own only. *)
Lemma fragment_not_RangeError fs m : fragment fs m <> Exn RangeError.
Proof.
  unfold fragment. destruct (filepath m) as [p|e] eqn:E.
  - destruct (existsSync fs p); [|discriminate]. unfold readFileSync.
    destruct (lookup fs p) as [[c|msg]|]; discriminate.
  - intros H. injection H as ->. revert E.
    unfold filepath, path_join. simpl validate_strings.
    destruct (token_folder m); [|discriminate]. cbv beta iota.
    match goal with
    | |- context [filter nonempty ?l] => destruct (filter nonempty l)
    end; discriminate.
Qed.

(** A callback reports a [RangeError] when the recursive call threw it or
    reported it itself. *)
Lemma callback_RangeError fs self m r l :
  callback fs self m = Some (r, l) ->
  (In RangeError l <->
   exists c, fragment fs m = Val (Some c) /\
     (self c = None \/ exists r', self c = Some (r', l) /\ In RangeError l)).
Proof.
  unfold callback. destruct (fragment fs m) as [[c|]|e] eqn:F.
  - destruct (self c) as [[r' l']|] eqn:E.
    + intros [= <- <-]. split.
      * intros Hin. exists c. split; [reflexivity|]. right. eauto.
      * intros (c' & Hc & [Hn|(r'' & _ & Hin)]); [|exact Hin].
        injection Hc as <-. rewrite E in Hn. discriminate Hn.
    + intros [= <- <-]. split; [|intros _; now left].
      intros _. exists c. split; [reflexivity|now left].
  - intros [= <- <-]. split; [intros []|].
    intros (c & Hc & _). discriminate Hc.
  - intros [= <- <-]. split.
    + intros [->|[]]. destruct (fragment_not_RangeError _ _ F).
    + intros (c & Hc & _). discriminate Hc.
Qed.

(** A reported [RangeError] means that fragments nest as deep as the stack
    has room. *)
Lemma overflow_chain fs : forall d s out log,
  replacePlaceholder d fs s = Some (out, log) -> In RangeError log ->
  exists l y, length l = d /\ chain fs s l y.
Proof.
  induction d as [|d IH]; intros s out log H Hin; [discriminate H|].
  change (subst (callback fs (replacePlaceholder d fs))
            (scan placeholder 0 s) = Some (out, log)) in H.
  apply (subst_log_In _ _ _ _ _ H) in Hin as (m & r & l & Hm & Hr & Hl).
  apply (callback_RangeError _ _ _ _ _ Hr) in Hl
    as (c & Hc & [Hn|(r' & Hs & Hl)]).
  - apply replacePlaceholder_None in Hn as ->.
    exists [c], c. split; [reflexivity|].
    constructor; [now exists m|constructor].
  - destruct (IH _ _ _ Hs Hl) as (l0 & y & Hlen & Hch).
    exists (c :: l0), y. split; [simpl; congruence|].
    constructor; [now exists m|assumption].
Qed.

(** Fragments that nest as deep as the stack has room lead to a reported
    [RangeError]. *)
Lemma chain_overflow fs : forall d s l y out log,
  chain fs s l y -> d <= length l ->
  replacePlaceholder d fs s = Some (out, log) -> In RangeError log.
Proof.
  induction d as [|d IH]; intros s l y out log Hch Hlen H; [discriminate H|].
  destruct Hch as [s|s s' l y (m & Hm & Hf) Hch]; simpl in Hlen; [lia|].
  change (subst (callback fs (replacePlaceholder d fs))
            (scan placeholder 0 s) = Some (out, log)) in H.
  apply (subst_log_In _ _ _ _ _ H).
  destruct (callback fs (replacePlaceholder d fs) m) as [[r lr]|] eqn:E;
    [|destruct (callback_returns _ _ _ E)].
  exists m, r, lr. split; [exact Hm|]. split; [exact E|].
  apply (callback_RangeError _ _ _ _ _ E). exists s'. split; [exact Hf|].
  destruct (replacePlaceholder d fs s') as [[r' l']|] eqn:E'; [|now left].
  right. unfold callback in E. rewrite Hf, E' in E. injection E as <- <-.
  exists r'. split; [reflexivity|].
  apply (IH _ _ _ r' l' Hch); [lia|exact E'].
Qed.

(** More room on the stack does not change the outcome of a call that
    reported no [RangeError]. *)
Lemma subst_mono (f g : text -> M text) : forall ps out log,
  (forall m r l, In (Tok m) ps -> f m = Some (r, l) -> ~ In RangeError l ->
                 g m = Some (r, l)) ->
  subst f ps = Some (out, log) -> ~ In RangeError log ->
  subst g ps = Some (out, log).
Proof.
  induction ps as [|[c|m] ps IH]; intros out log Hfg H Hlog; auto.
  - apply subst_Chr_inv in H as (a & H & ->). simpl.
    rewrite (IH _ _ (fun m r l Hin => Hfg m r l (or_intror Hin)) H Hlog).
    simpl. now rewrite app_nil_r.
  - apply subst_Tok_inv in H as (r & lr & a & la & Hm & H & -> & ->).
    rewrite in_app_iff in Hlog. simpl.
    rewrite (Hfg _ _ _ (or_introl eq_refl) Hm) by tauto. simpl.
    rewrite (IH _ _ (fun m r l Hin => Hfg m r l (or_intror Hin)) H) by tauto.
    simpl. now rewrite app_nil_r.
Qed.

Lemma replacePlaceholder_mono fs : forall d s out log,
  replacePlaceholder d fs s = Some (out, log) -> ~ In RangeError log ->
  replacePlaceholder (S d) fs s = Some (out, log).
Proof.
  induction d as [|d IH]; intros s out log H Hlog; [discriminate|].
  change (subst (callback fs (replacePlaceholder (S d) fs))
            (scan placeholder 0 s) = Some (out, log)).
  change (subst (callback fs (replacePlaceholder d fs))
            (scan placeholder 0 s) = Some (out, log)) in H.
  revert H Hlog. apply subst_mono.
  intros m r l _. unfold callback.
  destruct (fragment fs m) as [[c|]|e]; auto.
  destruct (replacePlaceholder d fs c) as [[r' l']|] eqn:E.
  - intros [= <- <-] Hl. now rewrite (IH _ _ _ E Hl).
  - intros [= <- <-] Hl. exfalso. apply Hl. now left.
Qed.

Lemma replacePlaceholder_mono_le fs d d' s out log :
  d <= d' ->
  replacePlaceholder d fs s = Some (out, log) -> ~ In RangeError log ->
  replacePlaceholder d' fs s = Some (out, log).
Proof.
  induction 1; auto. intros Hd Hlog.
  apply replacePlaceholder_mono; [now apply IHle|exact Hlog].
Qed.

(** *** Paths of the graph *)

Lemma chain_app fs : forall l1 s x l2 y,
  chain fs s l1 x -> chain fs x l2 y -> chain fs s (l1 ++ l2) y.
Proof.
  induction l1 as [|a l1 IH]; intros s x l2 y H1 H2; inversion H1; subst;
    simpl; auto.
  econstructor; eauto.
Qed.


Lemma clos_trans_refl_trans fs x y :
  clos_trans text (includes fs) x y -> clos_refl_trans text (includes fs) x y.
Proof.
  induction 1; [now apply rt_step|eapply rt_trans; eauto].
Qed.

Lemma chain_split fs : forall l1 s x l2 y,
  chain fs s (l1 ++ x :: l2) y ->
  clos_trans text (includes fs) s x /\ chain fs x l2 y.
Proof.
  induction l1 as [|a l1 IH]; intros s x l2 y H; simpl in H; inversion H; subst.
  - split; auto. now apply t_step.
  - destruct (IH _ _ _ _ H5) as (Hax & Hx). split; auto.
    eapply t_trans; [apply t_step|]; eauto.
Qed.

Lemma clos_trans_chain fs x y :
  clos_trans text (includes fs) x y ->
  exists l, l <> [] /\ chain fs x l y.
Proof.
  intros H. apply clos_trans_t1n in H.
  induction H as [x y H|x y z H _ (l & Hne & Hl)].
  - exists [y]. split; [discriminate|]. constructor; auto. constructor.
  - exists (y :: l). split; [discriminate|now constructor].
Qed.

Lemma clos_refl_trans_chain fs x y :
  clos_refl_trans text (includes fs) x y -> exists l, chain fs x l y.
Proof.
  intros H. apply clos_rt_rt1n in H.
  induction H as [x|x y z H _ (l & Hl)].
  - exists []. constructor.
  - exists (y :: l). now constructor.
Qed.

(** Around a cycle, paths of every length exist. *)
Lemma cycle_chains fs x :
  clos_trans text (includes fs) x x ->
  forall n, exists l, n <= length l /\ chain fs x l x.
Proof.
  intros H. destruct (clos_trans_chain _ _ _ H) as (l & Hne & Hl).
  induction n as [|n (l' & Hlen & Hl')].
  - exists []. split; [simpl; lia|constructor].
  - exists (l' ++ l). split.
    + rewrite length_app. destruct l; [congruence|simpl; lia].
    + eapply chain_app; eauto.
Qed.

(** On a text from which a cycle can be reached, every call reports a
    [RangeError], however much room the stack has. *)
Lemma cyclic_overflows fs s :
  cyclic fs s ->
  forall d out log,
    replacePlaceholder d fs s = Some (out, log) -> In RangeError log.
Proof.
  intros (x & Hsx & Hxx) d out log H.
  destruct (clos_refl_trans_chain _ _ _ Hsx) as (l0 & Hl0).
  destruct (cycle_chains _ _ Hxx d) as (l & Hlen & Hl).
  apply (chain_overflow fs d s _ _ out log (chain_app _ _ _ _ _ _ Hl0 Hl));
    [rewrite length_app; lia|exact H].
Qed.

(** *** Finitely many fragments *)

Lemma lookup_In fs p n : lookup fs p = Some n -> In (p, n) fs.
Proof.
  induction fs as [|[q n'] fs IH]; simpl; [discriminate|].
  unfold text_eqb. destruct (text_eq_dec q p) as [->|]; auto.
  intros [= ->]. auto.
Qed.

Lemma fragment_in_texts fs m c :
  fragment fs m = Val (Some c) -> In c (fragment_texts fs).
Proof.
  unfold fragment, existsSync, readFileSync.
  destruct (filepath m) as [p|e]; [|discriminate].
  destruct (lookup fs p) as [[content|msg]|] eqn:E; try discriminate.
  intros [= <-]. apply lookup_In in E. unfold fragment_texts.
  apply in_flat_map. exists (p, File content). split; auto. simpl.
  unfold banner_start, banner_end. destruct (isSvg m); simpl; auto.
  rewrite app_nil_r. auto.
Qed.

Lemma chain_in_texts fs s l y :
  chain fs s l y -> Forall (fun t => In t (fragment_texts fs)) l.
Proof.
  induction 1 as [s|s s' l y (m & _ & Hm) _ IH]; constructor; auto.
  eapply fragment_in_texts; eauto.
Qed.

(** A list longer than the set it draws from repeats an element. *)
Lemma repeated_element (l u : list text) :
  incl l u -> length u < length l ->
  exists x l1 l2 l3, l = l1 ++ x :: l2 ++ x :: l3.
Proof.
  intros Hincl Hlen.
  assert (Hdup : forall l : list text,
            NoDup l \/ exists x l1 l2 l3, l = l1 ++ x :: l2 ++ x :: l3).
  { clear. induction l as [|a l [IH|(x & l1 & l2 & l3 & ->)]].
    - left. constructor.
    - destruct (in_dec text_eq_dec a l) as [Hin|Hnin].
      + right. destruct (in_split _ _ Hin) as (l2 & l3 & ->).
        exists a, [], l2, l3. reflexivity.
      + left. now constructor.
    - right. exists x, (a :: l1), l2, l3. reflexivity. }
  destruct (Hdup l) as [Hnd|]; auto.
  pose proof (NoDup_incl_length Hnd Hincl). lia.
Qed.

(** A [RangeError] reported with more room on the stack than there are
    fragment texts comes from a cycle. *)
Lemma overflow_cyclic fs d s out log :
  length (fragment_texts fs) < d ->
  replacePlaceholder d fs s = Some (out, log) -> In RangeError log ->
  cyclic fs s.
Proof.
  intros Hd H Hin.
  destruct (overflow_chain _ _ _ _ _ H Hin) as (l & y & Hlen & Hl).
  destruct (repeated_element l (fragment_texts fs)) as (x & l1 & l2 & l3 & ->).
  - intros t Ht. pose proof (chain_in_texts _ _ _ _ Hl) as F.
    rewrite Forall_forall in F. auto.
  - lia.
  - destruct (chain_split _ _ _ _ _ _ Hl) as (Hsx & Hx).
    destruct (chain_split _ _ _ _ _ _ Hx) as (Hxx & _).
    exists x. split; auto. now apply clos_trans_refl_trans.
Qed.

(** Without a reachable cycle, every call with more room than there are
    fragment texts returns the same text and log, free of [RangeError]. *)
Lemma acyclic_result fs s :
  ~ cyclic fs s ->
  exists out log,
    ~ In RangeError log /\
    forall d, length (fragment_texts fs) < d ->
      replacePlaceholder d fs s = Some (out, log).
Proof.
  intros Hacyclic.
  destruct (replacePlaceholder_returns fs (length (fragment_texts fs)) s)
    as (out & log & H).
  assert (Hlog : ~ In RangeError log).
  { intros Hin. apply Hacyclic.
    apply (overflow_cyclic _ _ _ _ _ (Nat.lt_succ_diag_r _) H Hin). }
  exists out, log. split; [exact Hlog|].
  intros d Hd. apply (replacePlaceholder_mono_le fs _ d _ _ _ Hd H Hlog).
Qed.

(** ** The matcher on tokens *)

Lemma many_all A p w rest (k : text -> option A) x : forall min,
  forallb p w = true -> min <= length w ->
  many p 0 rest k = Some x -> many p min (w ++ rest) k = Some x.
Proof.
  induction w as [|c w IH]; intros min Hw Hmin Hrest; simpl in *.
  - now replace min with 0 by lia.
  - apply andb_prop in Hw as [Hc Hw]. rewrite Hc.
    rewrite IH; auto. lia.
Qed.

Lemma many_cons A p min c s (k : text -> option A) :
  many p min (c :: s) k =
  let stop := match min with O => k (c :: s) | S _ => None end in
  if p c then
    match many p (pred min) s k with
    | Some x => Some x
    | None => stop
    end
  else stop.
Proof. reflexivity. Qed.

Lemma many_none A p s (k : text -> option A) : forall min,
  (forall a b, s = a ++ b -> k b = None) -> many p min s k = None.
Proof.
  induction s as [|c s IH]; intros min Hk; simpl.
  - destruct min; auto. apply (Hk [] []). reflexivity.
  - rewrite IH.
    + destruct (p c), min; auto; apply (Hk [] (c :: s)); reflexivity.
    + intros a b ->. apply (Hk (c :: a) b). reflexivity.
Qed.

Lemma is_word_range c :
  is_word c = true ->
  (97 <= c <= 122 \/ 65 <= c <= 90 \/ 48 <= c <= 57 \/ c = 95)%N.
Proof.
  unfold is_word, in_range. rewrite !orb_true_iff, !andb_true_iff.
  rewrite !N.leb_le, N.eqb_eq. tauto.
Qed.

Lemma is_word_category c : is_word c = true -> is_category_char c = true.
Proof. unfold is_category_char. now intros ->. Qed.

Lemma is_word_dot c : is_word c = true -> is_dot c = true.
Proof.
  intros H. apply is_word_range in H. unfold is_dot.
  apply negb_true_iff. rewrite !orb_false_iff, !N.eqb_neq. lia.
Qed.

Lemma forallb_weaken (p q : code_unit -> bool) w :
  (forall c, p c = true -> q c = true) ->
  forallb p w = true -> forallb q w = true.
Proof.
  intros Hpq. induction w as [|c w IH]; simpl; auto.
  intros H. apply andb_prop in H as [Hc Hw]. now rewrite Hpq, IH.
Qed.

Lemma run_Seq A r1 r2 s (k : text -> option A) :
  run (Seq r1 r2) s k = run r1 s (fun s' => run r2 s' k).
Proof. reflexivity. Qed.

Lemma run_Many A min p s (k : text -> option A) :
  run (Many min p) s k = many p min s k.
Proof. reflexivity. Qed.

Lemma run_Lit_app A l s (k : text -> option A) : run (Lit l) (l ++ s) k = k s.
Proof. simpl. now rewrite drop_prefix_app. Qed.

Lemma run_kinds A kind s (k : text -> option A) :
  In kind kind_names -> run kinds (kind ++ s) k = k s.
Proof.
  intros [<-|[<-|[<-|[]]]]; unfold kinds.
  - cbn [run]. rewrite drop_prefix_app. now destruct (k s).
  - cbn [run]. rewrite drop_prefix_app.
    replace (drop_prefix (str "app") (str "deferred" ++ s)) with (@None text)
      by reflexivity.
    now destruct (k s).
  - cbn [run]. rewrite drop_prefix_app.
    replace (drop_prefix (str "app") (str "svg" ++ s)) with (@None text)
      by reflexivity.
    replace (drop_prefix (str "deferred") (str "svg" ++ s)) with (@None text)
      by reflexivity.
    reflexivity.
Qed.

Ltac run_step :=
  repeat (progress (rewrite ?run_Seq, ?run_Lit_app; cbv beta)).

(** The category set stops in front of a colon, where no closing braces
    follow. *)
Lemma many_category_colon A c t (k : text -> option A) :
  forallb is_word c = true ->
  (forall x s, x <> 125%N -> k (x :: s) = None) ->
  many is_category_char 0 (c ++ 58%N :: t) k = None.
Proof.
  intros Hc Hk. induction c as [|x c IH]; simpl in *.
  - now apply Hk.
  - apply andb_prop in Hc as [Hx Hc]. rewrite (is_word_category _ Hx), IH by auto.
    apply Hk. apply is_word_range in Hx. lia.
Qed.

Lemma closing_two_fails x s :
  x <> 125%N -> run (Lit (str "}}")) (x :: s) (fun rest => Some rest) = None.
Proof.
  intros Hx. cbn. destruct x as [|q]; auto.
  destruct (Pos.eqb_spec 125 q) as [<-|]; [congruence|reflexivity].
Qed.

Lemma run_pattern_two_token2 kind c :
  In kind kind_names -> forallb is_category_char c = true ->
  run pattern_two (token2 kind c) (fun rest => Some rest) = Some [].
Proof.
  intros Hk Hc. unfold pattern_two, token2.
  run_step. rewrite run_kinds by auto. run_step. rewrite run_Many.
  apply many_all; auto with arith.
Qed.

Lemma run_pattern_two_token3 kind c n :
  In kind kind_names -> forallb is_word c = true ->
  run pattern_two (token3 kind c n) (fun rest => Some rest) = None.
Proof.
  intros Hk Hc. unfold pattern_two, token3.
  run_step. rewrite run_kinds by auto. run_step. rewrite run_Many.
  apply (many_category_colon _ c (123%N :: n ++ str "}}}")); auto.
  intros x s Hx. now apply closing_two_fails.
Qed.

Lemma colon_brace_fails s :
  forallb (fun x => negb (N.eqb x 58)) s = true ->
  forall A (k : text -> option A) a b, s = a ++ b ->
  run (Lit (str ":{")) b k = None.
Proof.
  intros Hs A k a b ->. rewrite forallb_app in Hs.
  apply andb_prop in Hs as [_ Hb]. destruct b as [|x b]; auto.
  simpl in Hb. apply andb_prop in Hb as [Hx _].
  apply negb_true_iff, N.eqb_neq in Hx. cbn.
  destruct x as [|q]; auto.
  destruct (Pos.eqb_spec 58 q) as [<-|]; [congruence|reflexivity].
Qed.

Lemma run_pattern_three_token3 kind c n :
  In kind kind_names -> word c -> word n ->
  run pattern_three (token3 kind c n) (fun rest => Some rest) = Some [].
Proof.
  intros Hk [Hc Hc0] [Hn Hn0]. unfold pattern_three, token3.
  run_step. rewrite run_kinds by auto. run_step. rewrite run_Many.
  apply many_all.
  - revert Hc. apply forallb_weaken, is_word_dot.
  - destruct c; [congruence|simpl; lia].
  - change (str ":{" ++ n ++ str "}}}") with (58%N :: 123%N :: n ++ str "}}}").
    rewrite many_cons. replace (is_dot 58%N) with true by reflexivity.
    rewrite many_none.
    + change (58%N :: 123%N :: n ++ str "}}}")
        with (str ":{" ++ n ++ str "}}}").
      run_step. rewrite run_Many. apply many_all.
      * revert Hn. apply forallb_weaken, is_word_dot.
      * destruct n; [congruence|simpl; lia].
      * reflexivity.
    + intros a b Hab. rewrite run_Seq.
      apply (colon_brace_fails (123%N :: n ++ str "}}}")) with (a := a); auto.
      simpl. rewrite forallb_app. apply andb_true_intro. split; [|reflexivity].
      revert Hn. apply forallb_weaken. intros x Hx.
      apply is_word_range in Hx. apply negb_true_iff, N.eqb_neq. lia.
Qed.

Lemma exec_placeholder_nil : exec placeholder [] = None.
Proof. reflexivity. Qed.

Lemma token2_not_nil kind c : token2 kind c <> [].
Proof. discriminate. Qed.

Lemma token3_not_nil kind c n : token3 kind c n <> [].
Proof. discriminate. Qed.

(** A two-part token on its own is scanned as one token. *)
Lemma scan_token2 kind c :
  In kind kind_names -> forallb is_category_char c = true ->
  scan placeholder 0 (token2 kind c) = [Tok (token2 kind c)].
Proof.
  intros Hk Hc. apply scan_whole.
  - apply exec_whole. unfold placeholder. cbn [run].
    now rewrite run_pattern_two_token2.
  - apply exec_placeholder_nil.
  - apply token2_not_nil.
Qed.

(** A three-part token of words on its own is scanned as one token. *)
Lemma scan_token3 kind c n :
  In kind kind_names -> word c -> word n ->
  scan placeholder 0 (token3 kind c n) = [Tok (token3 kind c n)].
Proof.
  intros Hk Hc Hn. apply scan_whole.
  - apply exec_whole. unfold placeholder. cbn [run].
    rewrite run_pattern_two_token3 by (auto; apply Hc).
    now apply run_pattern_three_token3.
  - apply exec_placeholder_nil.
  - apply token3_not_nil.
Qed.

(** ** The parts of a token *)

Lemma strip_braces_app a b :
  strip_braces (a ++ b) = strip_braces a ++ strip_braces b.
Proof.
  induction a as [|c a IH]; simpl; auto.
  destruct (N.eqb c 123 || N.eqb c 125); simpl; now rewrite IH.
Qed.

Lemma strip_braces_word w : forallb is_word w = true -> strip_braces w = w.
Proof.
  induction w as [|c w IH]; simpl; auto. intros H.
  apply andb_prop in H as [Hc Hw]. rewrite IH by auto.
  apply is_word_range in Hc.
  replace (N.eqb c 123) with false by (symmetry; apply N.eqb_neq; lia).
  replace (N.eqb c 125) with false by (symmetry; apply N.eqb_neq; lia).
  reflexivity.
Qed.

Lemma strip_braces_kind kind : In kind kind_names -> strip_braces kind = kind.
Proof. intros [<-|[<-|[<-|[]]]]; reflexivity. Qed.

Lemma split_cons sep s : exists h t, split sep s = h :: t.
Proof.
  induction s as [|c s (h & t & IH)]; simpl; eauto.
  destruct (N.eqb c sep); eauto. rewrite IH. eauto.
Qed.

Lemma split_app sep a t :
  free_of sep a -> split sep (a ++ sep :: t) = a :: split sep t.
Proof.
  unfold free_of. induction a as [|c a IH]; simpl.
  - now rewrite N.eqb_refl.
  - intros H. apply andb_prop in H as [Hc Ha].
    apply negb_true_iff in Hc. now rewrite Hc, IH.
Qed.

Lemma split_single sep a : free_of sep a -> split sep a = [a].
Proof.
  unfold free_of. induction a as [|c a IH]; simpl; auto.
  intros H. apply andb_prop in H as [Hc Ha].
  apply negb_true_iff in Hc. now rewrite Hc, IH.
Qed.

Lemma word_free_of sep w :
  is_word sep = false -> forallb is_word w = true -> free_of sep w.
Proof.
  intros Hsep. apply forallb_weaken. intros c Hc.
  apply negb_true_iff, N.eqb_neq. congruence.
Qed.

Lemma kind_free_of_colon kind : In kind kind_names -> free_of 58%N kind.
Proof. intros [<-|[<-|[<-|[]]]]; reflexivity. Qed.

Lemma matches_kinds_inv w : matches kinds w -> In w kind_names.
Proof.
  unfold kinds, kind_names. intros H.
  repeat match goal with
  | H : matches (Alt _ _) _ |- _ => inversion H; subst; clear H
  | H : matches (Lit _) _ |- _ => inversion H; subst; clear H
  end; simpl; auto.
Qed.

(** The two shapes the pattern accepts. *)
Lemma matches_placeholder_inv m :
  matches placeholder m ->
  exists kind, In kind kind_names /\
    ((exists c, forallb is_category_char c = true /\ m = token2 kind c) \/
     (exists a b, forallb is_dot a = true /\ a <> [] /\
                  forallb is_dot b = true /\ b <> [] /\ m = token3 kind a b)).
Proof.
  unfold placeholder, pattern_two, pattern_three. intros H.
  inversion H; subst; clear H;
  repeat match goal with
  | H : matches (Seq _ _) _ |- _ => inversion H; subst; clear H
  | H : matches (Lit _) _ |- _ => inversion H; subst; clear H
  | H : matches (Many _ _) _ |- _ => inversion H; subst; clear H
  end;
  match goal with
  | H : matches kinds ?k |- _ => exists k; split; [now apply matches_kinds_inv|]
  end.
  - left. eexists. split; eauto.
  - right. do 2 eexists. repeat split; eauto;
      intros ->; simpl in *; lia.
Qed.

Lemma token_parts_head kind t :
  In kind kind_names ->
  token_parts (str "{" ++ kind ++ str ":{" ++ t) =
  kind :: split 58%N (strip_braces t).
Proof.
  intros Hk. unfold token_parts. rewrite !strip_braces_app.
  rewrite (strip_braces_kind _ Hk).
  change (strip_braces (str "{")) with (@nil code_unit).
  change (strip_braces (str ":{")) with [58%N].
  simpl app. apply split_app. now apply kind_free_of_colon.
Qed.

(** Every match has a kind and a folder part, so [path.join] never sees
    [undefined]. *)
Lemma token_parts_of_match m :
  matches placeholder m ->
  exists kind folder rest,
    In kind kind_names /\ token_parts m = kind :: folder :: rest.
Proof.
  intros H. destruct (matches_placeholder_inv _ H)
    as (kind & Hk & [(c & _ & ->)|(a & b & _ & _ & _ & _ & ->)]).
  - unfold token2. rewrite token_parts_head by auto.
    destruct (split_cons 58%N (strip_braces (c ++ str "}}"))) as (h & t & ->).
    eauto.
  - unfold token3. rewrite token_parts_head by auto.
    destruct (split_cons 58%N (strip_braces (a ++ str ":{" ++ b ++ str "}}}")))
      as (h & t & ->).
    eauto.
Qed.

Lemma token_parts_token2 kind c :
  In kind kind_names -> forallb is_category_char c = true ->
  token_parts (token2 kind c) = [kind; c].
Proof.
  intros Hk Hc. unfold token2. rewrite token_parts_head by auto.
  rewrite strip_braces_app. change (strip_braces (str "}}")) with (@nil code_unit).
  rewrite app_nil_r.
  assert (Hs : strip_braces c = c /\ free_of 58%N c).
  { unfold free_of. induction c as [|x c IH]; simpl in *; auto.
    apply andb_prop in Hc as [Hx Hc]. destruct (IH Hc) as [-> ->].
    unfold is_category_char in Hx. rewrite !orb_true_iff, !N.eqb_eq in Hx.
    assert (x <> 123 /\ x <> 125 /\ x <> 58)%N as (H1 & H2 & H3).
    { destruct Hx as [[Hx|Hx]|Hx]; [apply is_word_range in Hx|..]; lia. }
    apply N.eqb_neq in H1, H2, H3. now rewrite H1, H2, H3. }
  destruct Hs as [-> Hs]. now rewrite split_single.
Qed.

Lemma token_parts_token3 kind c n :
  In kind kind_names -> word c -> word n ->
  token_parts (token3 kind c n) = [kind; c; n].
Proof.
  intros Hk [Hc _] [Hn _]. unfold token3. rewrite token_parts_head by auto.
  rewrite !strip_braces_app.
  rewrite (strip_braces_word c), (strip_braces_word n) by auto.
  change (strip_braces (str "}}}")) with (@nil code_unit).
  change (strip_braces (str ":{")) with [58%N].
  rewrite app_nil_r. simpl app.
  rewrite split_app by (apply word_free_of; [reflexivity|assumption]).
  rewrite split_single by (apply word_free_of; [reflexivity|assumption]).
  reflexivity.
Qed.

(** ** [path.join] on plain segments *)

Lemma text_eqb_refl a : text_eqb a a = true.
Proof. unfold text_eqb. destruct (text_eq_dec a a); congruence. Qed.

Lemma text_eqb_neq a b : a <> b -> text_eqb a b = false.
Proof. unfold text_eqb. destruct (text_eq_dec a b); congruence. Qed.


Lemma normalize_segments_plain allow : forall segs out,
  Forall plain segs ->
  normalize_segments allow segs out = rev out ++ segs.
Proof.
  induction segs as [|seg segs IH]; intros out H; simpl.
  - now rewrite app_nil_r.
  - inversion H as [|? ? (H0 & H1 & H2 & _) Hsegs]; subst.
    rewrite !text_eqb_neq by assumption. simpl.
    rewrite IH by assumption. simpl. now rewrite <- app_assoc.
Qed.

Lemma split_join : forall segs,
  Forall plain segs -> segs <> [] ->
  split slash (join_with [slash] segs) = segs.
Proof.
  induction segs as [|a [|b segs] IH]; intros H Hne; [congruence| |].
  - inversion H as [|? ? (_ & _ & _ & Ha) _]; subst. now apply split_single.
  - inversion H as [|? ? (_ & _ & _ & Ha) Hsegs]; subst.
    change (join_with [slash] (a :: b :: segs))
      with (a ++ slash :: join_with [slash] (b :: segs)).
    rewrite split_app by assumption. rewrite IH; [reflexivity|assumption|discriminate].
Qed.

Lemma last_app_r (a b : text) d : b <> [] -> last (a ++ b) d = last b d.
Proof.
  intros Hb. induction a as [|x a IH]; simpl; auto.
  rewrite IH. destruct (a ++ b) eqn:E; auto.
  apply app_eq_nil in E as [_ ->]. congruence.
Qed.

Lemma last_free_of sep (a : text) d :
  a <> [] -> free_of sep a -> last a d <> sep.
Proof.
  unfold free_of. induction a as [|x a IH]; [congruence|].
  intros _ H. simpl in H. apply andb_prop in H as [Hx Ha].
  destruct a as [|y a].
  - simpl. now apply negb_true_iff, N.eqb_neq in Hx.
  - change (last (x :: y :: a) d) with (last (y :: a) d).
    apply IH; [discriminate|assumption].
Qed.

Lemma join_with_not_nil : forall segs,
  Forall plain segs -> segs <> [] -> join_with [slash] segs <> [].
Proof.
  intros [|a [|b segs]] H Hne; [congruence| |];
    inversion H as [|? ? (Ha & _) _]; subst; simpl; auto.
  destruct a; [congruence|discriminate].
Qed.

Lemma last_join : forall segs,
  Forall plain segs -> segs <> [] ->
  last (join_with [slash] segs) 0%N <> slash.
Proof.
  induction segs as [|a [|b segs] IH]; intros H Hne; [congruence| |].
  - inversion H as [|? ? (Ha & _ & _ & Hf) _]; subst. simpl.
    now apply last_free_of.
  - inversion H as [|? ? _ Hsegs]; subst.
    change (join_with [slash] (a :: b :: segs))
      with (a ++ [slash] ++ join_with [slash] (b :: segs)).
    assert (Hj : join_with [slash] (b :: segs) <> [])
      by (apply join_with_not_nil; [assumption|discriminate]).
    rewrite !last_app_r; auto.
    + apply IH; [assumption|discriminate].
    + simpl. discriminate.
Qed.

(** Joining plain segments only puts the separators in. *)
Lemma normalize_join_plain segs :
  Forall plain segs -> segs <> [] ->
  normalize (join_with [slash] segs) = join_with [slash] segs.
Proof.
  intros H Hne. unfold normalize.
  pose proof (join_with_not_nil _ H Hne) as Hj.
  pose proof (last_join _ H Hne) as Hlast.
  destruct (join_with [slash] segs) as [|first path] eqn:E; [congruence|].
  assert (Hfirst : first <> slash).
  { destruct segs as [|a segs]; [congruence|].
    inversion H as [|? ? (Ha & _ & _ & Hf) _]; subst.
    destruct a as [|x a]; [congruence|].
    assert (first = x) as ->.
    { destruct segs; simpl in E; congruence. }
    unfold free_of in Hf. simpl in Hf. apply andb_prop in Hf as [Hx _].
    now apply negb_true_iff, N.eqb_neq in Hx. }
  apply N.eqb_neq in Hfirst, Hlast. cbv zeta. rewrite Hfirst, Hlast.
  rewrite <- E. rewrite split_join by assumption.
  rewrite normalize_segments_plain by assumption. simpl rev.
  rewrite app_nil_l, E. reflexivity.
Qed.

Lemma word_plain c : word c -> plain c.
Proof.
  intros [Hc Hne]. repeat split; auto.
  - intros ->. discriminate.
  - intros ->. discriminate.
  - apply word_free_of; auto.
Qed.

Lemma free_of_app sep a b : free_of sep a -> free_of sep b -> free_of sep (a ++ b).
Proof.
  unfold free_of. intros Ha Hb. rewrite forallb_app. now apply andb_true_intro.
Qed.

Lemma word_ext_plain n ext :
  word n -> free_of slash ext -> plain (n ++ ext).
Proof.
  intros [Hn Hne] Hext.
  assert (Hf : free_of slash (n ++ ext))
    by (apply free_of_app; [apply word_free_of|]; auto).
  destruct n as [|x n]; [congruence|].
  assert (x <> dot).
  { intros ->. simpl in Hn. discriminate. }
  repeat split; simpl; try congruence. exact Hf.
Qed.

Lemma nonempty_word c : word c -> nonempty c = true.
Proof. intros [_ Hne]. destruct c; [congruence|reflexivity]. Qed.

(** The code's path is the join the specification describes. *)
Lemma filepath_of_parts m kind category rest :
  token_parts m = kind :: category :: rest ->
  filepath m = spec_fragment_path kind category (hd_error rest).
Proof.
  intros Hp.
  unfold filepath, spec_fragment_path, token_file, token_folder,
    extension, isSvg, mapped_type, token_type.
  rewrite Hp. simpl nth. simpl nth_error.
  destruct rest as [|n rest]; simpl;
    destruct (text_eqb kind (str "app")); reflexivity.
Qed.

(** For a category and a name that are words the join only puts the
    separators in. *)
Lemma spec_fragment_path_words kind c n :
  In kind kind_names -> word c -> word n ->
  spec_fragment_path kind c (Some n) =
  Val (str "components/" ++ mapped_type kind ++ [slash] ++ c ++ [slash]
       ++ n ++ (if text_eqb kind (str "svg") then str ".svg" else str ".html")).
Proof.
  intros Hk Hc Hn. unfold spec_fragment_path, path_join.
  pose proof (word_plain _ Hc) as Pc.
  destruct Hk as [<-|[<-|[<-|[]]]].
  - change (mapped_type (str "app")) with (str "app").
    change (text_eqb (str "app") (str "app")) with true.
    change (text_eqb (str "app") (str "svg")) with false. cbv iota.
    simpl validate_strings. cbv beta iota. simpl filter.
    rewrite (nonempty_word _ Hc).
    replace (nonempty (n ++ str ".html")) with true
      by (destruct Hn as [_ Hn]; destruct n; [congruence|reflexivity]).
    rewrite normalize_join_plain; [reflexivity| |discriminate].
    repeat constructor; try discriminate; try apply Pc;
      apply (word_ext_plain n (str ".html")); auto; reflexivity.
  - change (mapped_type (str "deferred")) with (str "app/_deferred").
    change (text_eqb (str "deferred") (str "app")) with false.
    change (text_eqb (str "deferred") (str "svg")) with false. cbv iota.
    simpl validate_strings. cbv beta iota. simpl filter.
    rewrite (nonempty_word _ Hc).
    replace (nonempty (n ++ str ".html")) with true
      by (destruct Hn as [_ Hn]; destruct n; [congruence|reflexivity]).
    apply f_equal.
    transitivity (normalize (join_with [slash]
                    [str "components"; str "app"; str "_deferred"; c;
                     n ++ str ".html"])); [reflexivity|].
    rewrite normalize_join_plain; [reflexivity| |discriminate].
    repeat constructor; try discriminate; try apply Pc;
      apply (word_ext_plain n (str ".html")); auto; reflexivity.
  - change (mapped_type (str "svg")) with (str "app/_svg").
    change (text_eqb (str "svg") (str "app")) with false.
    change (text_eqb (str "svg") (str "svg")) with true. cbv iota.
    simpl validate_strings. cbv beta iota. simpl filter.
    rewrite (nonempty_word _ Hc).
    replace (nonempty (n ++ str ".svg")) with true
      by (destruct Hn as [_ Hn]; destruct n; [congruence|reflexivity]).
    apply f_equal.
    transitivity (normalize (join_with [slash]
                    [str "components"; str "app"; str "_svg"; c;
                     n ++ str ".svg"])); [reflexivity|].
    rewrite normalize_join_plain; [reflexivity| |discriminate].
    repeat constructor; try discriminate; try apply Pc;
      apply (word_ext_plain n (str ".svg")); auto; reflexivity.
Qed.

(** The path of a three-part token whose category and name are words. *)
Lemma filepath_token3 kind c n :
  In kind kind_names -> word c -> word n ->
  filepath (token3 kind c n) =
  Val (str "components/" ++ mapped_type kind ++ [slash] ++ c ++ [slash]
       ++ n ++ (if text_eqb kind (str "svg") then str ".svg" else str ".html")).
Proof.
  intros Hk Hc Hn.
  rewrite (filepath_of_parts _ _ _ _ (token_parts_token3 _ _ _ Hk Hc Hn)).
  now apply spec_fragment_path_words.
Qed.

(** The path of a two-part token whose category is a word: the category
    stands in for the name. *)
Lemma filepath_token2 kind c :
  In kind kind_names -> word c ->
  filepath (token2 kind c) =
  Val (str "components/" ++ mapped_type kind ++ [slash] ++ c ++ [slash]
       ++ c ++ (if text_eqb kind (str "svg") then str ".svg" else str ".html")).
Proof.
  intros Hk Hc.
  assert (Hcat : forallb is_category_char c = true)
    by (destruct Hc as [Hc _]; revert Hc;
        apply forallb_weaken, is_word_category).
  rewrite (filepath_of_parts _ _ _ _ (token_parts_token2 _ _ Hk Hcat)).
  now apply (spec_fragment_path_words kind c c).
Qed.

(** No token of a scan makes [path.join] throw. *)
Lemma filepath_defined s m : is_token s m -> exists p, filepath m = Val p.
Proof.
  intros Hm. apply scan_token in Hm as (Hm & _).
  destruct (token_parts_of_match _ Hm) as (kind & category & rest & _ & Hp).
  rewrite (filepath_of_parts _ _ _ _ Hp).
  unfold spec_fragment_path, path_join. simpl validate_strings. cbv beta iota.
  match goal with
  | |- context [filter nonempty ?l] => destruct (filter nonempty l)
  end; eauto.
Qed.

(** ** One token inside a document *)

Lemma subst_single f m : subst f [Tok m] = f m.
Proof.
  simpl. destruct (f m) as [[r l]|]; simpl; auto. now rewrite !app_nil_r.
Qed.

Lemma replace_at_token fs d s ps1 m ps2 :
  scan placeholder 0 s = ps1 ++ Tok m :: ps2 ->
  replacePlaceholder (S d) fs s =
  (a <- subst (callback fs (replacePlaceholder d fs)) ps1 ;;
   r <- callback fs (replacePlaceholder d fs) m ;;
   b <- subst (callback fs (replacePlaceholder d fs)) ps2 ;;
   ret (a ++ r ++ b)).
Proof.
  intros H. simpl. unfold replace. rewrite H, subst_app. simpl subst.
  destruct (subst _ ps1) as [[a la]|]; simpl; auto.
  destruct (callback _ _ m) as [[r lr]|]; simpl; auto.
  destruct (subst _ ps2) as [[b lb]|]; simpl; auto.
  now rewrite !app_nil_r.
Qed.

Lemma fragment_File fs m p content :
  filepath m = Val p -> lookup fs p = Some (File content) ->
  fragment fs m = Val (Some (banner_start m p ++ content ++ banner_end m p)).
Proof.
  intros Hp Hl. unfold fragment, existsSync, readFileSync. now rewrite Hp, Hl.
Qed.

Lemma fragment_Unreadable fs m p msg :
  filepath m = Val p -> lookup fs p = Some (Unreadable msg) ->
  fragment fs m = Exn (FsError msg).
Proof.
  intros Hp Hl. unfold fragment, existsSync, readFileSync. now rewrite Hp, Hl.
Qed.

Lemma fragment_missing fs m p :
  filepath m = Val p -> existsSync fs p = false -> fragment fs m = Val None.
Proof. intros Hp He. unfold fragment. now rewrite Hp, He. Qed.

Lemma no_token_identity fs d s :
  (forall m, ~ is_token s m) -> replacePlaceholder (S d) fs s = Some (s, []).
Proof.
  intros H. simpl. unfold replace. rewrite subst_verbatim.
  - now rewrite flatten_scan.
  - intros m Hm. destruct (H m Hm).
Qed.

Lemma all_missing_identity fs d s :
  (forall m, is_token s m ->
     exists p, filepath m = Val p /\ existsSync fs p = false) ->
  replacePlaceholder (S d) fs s = Some (s, []).
Proof.
  intros H. simpl. unfold replace. rewrite subst_verbatim.
  - now rewrite flatten_scan.
  - intros m Hm. destruct (H m Hm) as (p & Hp & He).
    unfold callback. now rewrite (fragment_missing _ _ _ Hp He).
Qed.

(** With room on the stack, the callback of a token whose fragment can be
    read is the recursive call on the fragment's text. *)
Lemma callback_File fs d m p content :
  filepath m = Val p -> lookup fs p = Some (File content) ->
  callback fs (replacePlaceholder (S d) fs) m
  = replacePlaceholder (S d) fs
      (banner_start m p ++ content ++ banner_end m p).
Proof.
  intros Hp Hl. unfold callback. rewrite (fragment_File _ _ _ _ Hp Hl).
  destruct (replacePlaceholder_returns fs d
              (banner_start m p ++ content ++ banner_end m p))
    as (out & log & ->).
  reflexivity.
Qed.

Lemma matches_placeholder_brace m : matches placeholder m -> In 123%N m.
Proof.
  intros H. destruct (matches_placeholder_inv _ H)
    as (kind & _ & [(c & _ & ->)|(a & b & _ & _ & _ & _ & ->)]); simpl; auto.
Qed.

(** A text without an opening brace has no substring the pattern matches. *)
Lemma brace_free_no_match s :
  free_of 123%N s ->
  forall pre m post, s = pre ++ m ++ post -> ~ matches placeholder m.
Proof.
  unfold free_of. intros Hs pre m post -> Hm.
  apply matches_placeholder_brace in Hm.
  rewrite forallb_forall in Hs.
  specialize (Hs 123%N). rewrite N.eqb_refl in Hs.
  assert (false = true); [|discriminate].
  apply Hs. rewrite !in_app_iff. auto.
Qed.

(** * The claims *)

(** C1: for every token that [replacePlaceholder] processes, with kind [k],
    category [c] and optional name [n], the fragment path is the join of
    'components', the mapped kind ([k] itself for app, 'app/_' + [k]
    otherwise), [c], and [n] (or [c] when there is no name) plus '.svg' for
    svg and '.html' otherwise; in particular a deferred token with word
    category and name is looked up at
    components/app/_deferred/<category>/<name>.html, the category standing
    in for a name that is absent. *)
Theorem fragment_path_of_token s m :
  is_token s m ->
  (exists kind category rest,
     In kind kind_names /\
     token_parts m = kind :: category :: rest /\
     filepath m = spec_fragment_path kind category (hd_error rest)) /\
  (forall c n, word c -> word n -> m = token3 (str "deferred") c n ->
     filepath m =
     Val (str "components/app/_deferred/" ++ c ++ str "/" ++ n ++ str ".html")) /\
  (forall c, word c -> m = token2 (str "deferred") c ->
     filepath m =
     Val (str "components/app/_deferred/" ++ c ++ str "/" ++ c ++ str ".html")).
Proof.
  intros Hm. repeat split.
  - apply scan_token in Hm as (Hm & _).
    destruct (token_parts_of_match _ Hm) as (kind & category & rest & Hk & Hp).
    exists kind, category, rest. repeat split; auto.
    now apply filepath_of_parts.
  - intros c n Hc Hn ->. rewrite filepath_token3; simpl; auto.
  - intros c Hc ->. rewrite filepath_token2; simpl; auto.
Qed.

Lemma fragment_path_of_token_witness :
  filepath (str "{deferred:{teaser:{intro}}}")
  = Val (str "components/app/_deferred/teaser/intro.html").
Proof.
  apply (fragment_path_of_token (str "<p>{deferred:{teaser:{intro}}}</p>")
           (str "{deferred:{teaser:{intro}}}"))
    with (c := str "teaser") (n := str "intro").
  - vm_compute. auto 10.
  - split; [reflexivity|discriminate].
  - split; [reflexivity|discriminate].
  - reflexivity.
Defined.

(** C2: a token whose fragment path does not exist is left verbatim in the
    output and reports no error; when this holds of every token of the
    input, the input is returned as it is, e.g. "{app:{missing}}". *)
Theorem missing_fragment_left_verbatim fs d s :
  (forall ps1 m ps2 p,
     scan placeholder 0 s = ps1 ++ Tok m :: ps2 ->
     filepath m = Val p -> existsSync fs p = false ->
     replacePlaceholder (S d) fs s =
     (a <- subst (callback fs (replacePlaceholder d fs)) ps1 ;;
      b <- subst (callback fs (replacePlaceholder d fs)) ps2 ;;
      ret (a ++ m ++ b))) /\
  ((forall m, is_token s m ->
      exists p, filepath m = Val p /\ existsSync fs p = false) ->
   replacePlaceholder (S d) fs s = Some (s, [])).
Proof.
  split.
  - intros ps1 m ps2 p Hscan Hp He. rewrite (replace_at_token _ _ _ _ _ _ Hscan).
    unfold callback at 2. rewrite (fragment_missing _ _ _ Hp He).
    apply bind_ext. intros a. apply bind_ret_l.
  - apply all_missing_identity.
Qed.

Lemma missing_fragment_left_verbatim_witness :
  replacePlaceholder 1 fs_nested (str "{app:{missing}}")
  = Some (str "{app:{missing}}", []).
Proof.
  apply (missing_fragment_left_verbatim fs_nested 0 (str "{app:{missing}}")).
  intros m Hm. exists (str "components/app/missing/missing.html").
  vm_compute in Hm. destruct Hm as [Hm|[]]. injection Hm as <-.
  split; reflexivity.
Defined.

(** C3: substitution is recursive: when the fragment file of a token exists,
    [replacePlaceholder] is called on the fragment's text and its result
    replaces the token; so when fragment A's content is the token of
    fragment B and B's content [Y] has no placeholders, a document
    containing the token of A gets [Y] in its place. *)
Theorem fragment_content_resolved_recursively fs d s ps1 m ps2 p content :
  scan placeholder 0 s = ps1 ++ Tok m :: ps2 ->
  filepath m = Val p -> lookup fs p = Some (File content) ->
  replacePlaceholder (S (S d)) fs s =
  (a <- subst (callback fs (replacePlaceholder (S d) fs)) ps1 ;;
   r <- replacePlaceholder (S d) fs
          (banner_start m p ++ content ++ banner_end m p) ;;
   b <- subst (callback fs (replacePlaceholder (S d) fs)) ps2 ;;
   ret (a ++ r ++ b)) /\
  (forall pB Y,
     isSvg m = false ->
     scan placeholder 0 content = [Tok content] -> isSvg content = false ->
     filepath content = Val pB -> lookup fs pB = Some (File Y) ->
     (forall t, ~ is_token Y t) ->
     replacePlaceholder (S (S (S d))) fs s =
     (a <- subst (callback fs (replacePlaceholder (S (S d)) fs)) ps1 ;;
      b <- subst (callback fs (replacePlaceholder (S (S d)) fs)) ps2 ;;
      ret (a ++ Y ++ b))).
Proof.
  intros Hscan Hp Hl.
  assert (Hrec : forall d',
    replacePlaceholder (S (S d')) fs s =
    (a <- subst (callback fs (replacePlaceholder (S d') fs)) ps1 ;;
     r <- replacePlaceholder (S d') fs
            (banner_start m p ++ content ++ banner_end m p) ;;
     b <- subst (callback fs (replacePlaceholder (S d') fs)) ps2 ;;
     ret (a ++ r ++ b))).
  { intros d'. rewrite (replace_at_token _ _ _ _ _ _ Hscan).
    now rewrite (callback_File _ _ _ _ _ Hp Hl). }
  split; [apply Hrec|].
  intros pB Y Hm Hscan' Hc HpB HlB HY. rewrite Hrec.
  unfold banner_start, banner_end. rewrite Hm, app_nil_r. simpl app.
  assert (HB : replacePlaceholder (S (S d)) fs content = Some (Y, [])).
  { change (replace placeholder (callback fs (replacePlaceholder (S d) fs))
              content = Some (Y, [])).
    unfold replace. rewrite Hscan', subst_single.
    rewrite (callback_File _ _ _ _ _ HpB HlB).
    unfold banner_start, banner_end. rewrite Hc, app_nil_r. simpl app.
    now apply no_token_identity. }
  rewrite HB. apply bind_ext. intros a. apply bind_ret_l.
Qed.

Lemma fragment_content_resolved_recursively_witness :
  replacePlaceholder 3 fs_nested (str "<p>{app:{a}}</p>")
  = Some (str "<p>Y</p>", []).
Proof.
  pose proof (fragment_content_resolved_recursively fs_nested 0
                (str "<p>{app:{a}}</p>")
                [Chr 60%N; Chr 112%N; Chr 62%N] (str "{app:{a}}")
                [Chr 60%N; Chr 47%N; Chr 112%N; Chr 62%N]
                (str "components/app/a/a.html") (str "{app:{b}}")
                eq_refl eq_refl eq_refl) as [_ H].
  rewrite (H (str "components/app/b/b.html") (str "Y")); try reflexivity.
  intros t Ht. vm_compute in Ht. destruct Ht as [Ht|[]]. discriminate Ht.
Defined.

(** C4: on an input without any substring the placeholder pattern matches,
    [replacePlaceholder] is the identity. *)
Theorem identity_without_placeholders fs d s :
  (forall pre m post, s = pre ++ m ++ post -> ~ matches placeholder m) ->
  replacePlaceholder (S d) fs s = Some (s, []).
Proof.
  intros H. apply no_token_identity. intros m Hm.
  apply scan_token in Hm as (Hm & pre & post & ->). exact (H _ _ _ eq_refl Hm).
Qed.

Lemma identity_without_placeholders_witness :
  replacePlaceholder 1 fs_nested (str "<h1>Hello: app</h1>")
  = Some (str "<h1>Hello: app</h1>", []).
Proof.
  apply identity_without_placeholders.
  apply brace_free_no_match. reflexivity.
Defined.

(** C5, as the specification states it, fails: the text put in place of
    "{svg:{icon}}" is not the content between the two bare comments. *)
Lemma svg_banner_counterexample :
  ~ exists d l,
      replacePlaceholder d fs_icon (str "{svg:{icon}}")
      = Some (spec_svg_banner (str "components/app/_svg/icon/icon.svg")
                (str "<svg/>"), l).
Proof.
  intros (d & l & H).
  assert (H2 : replacePlaceholder 2 fs_icon (str "{svg:{icon}}")
               = Some (str "<!-- START components/app/_svg/icon/icon.svg -->"
                       ++ [newline] ++ str "<svg/>"
                       ++ str "<!-- END components/app/_svg/icon/icon.svg -->"
                       ++ [newline], [])) by reflexivity.
  destruct d as [|[|d]].
  - discriminate H.
  - vm_compute in H. discriminate H.
  - apply (replacePlaceholder_mono_le _ 2 (S (S d))) in H2;
      [|lia|intros []].
    rewrite H in H2. vm_compute in H2. discriminate H2.
Qed.

(** C5 (amended): for a token of kind svg whose fragment file exists, the
    text put in its place is the resolution of the fragment content between
    the banner lines "<!-- START <path> -->" and "<!-- END <path> -->", each
    ended by a newline; for kind app or deferred it is the resolution of
    the content alone. *)
Theorem svg_fragment_banner fs d s ps1 m ps2 p content :
  scan placeholder 0 s = ps1 ++ Tok m :: ps2 ->
  filepath m = Val p -> lookup fs p = Some (File content) ->
  (token_type m = str "svg" ->
   replacePlaceholder (S (S d)) fs s =
   (a <- subst (callback fs (replacePlaceholder (S d) fs)) ps1 ;;
    r <- replacePlaceholder (S d) fs
           (str "<!-- START " ++ p ++ str " -->" ++ [newline] ++ content
            ++ str "<!-- END " ++ p ++ str " -->" ++ [newline]) ;;
    b <- subst (callback fs (replacePlaceholder (S d) fs)) ps2 ;;
    ret (a ++ r ++ b))) /\
  (token_type m = str "app" \/ token_type m = str "deferred" ->
   replacePlaceholder (S (S d)) fs s =
   (a <- subst (callback fs (replacePlaceholder (S d) fs)) ps1 ;;
    r <- replacePlaceholder (S d) fs content ;;
    b <- subst (callback fs (replacePlaceholder (S d) fs)) ps2 ;;
    ret (a ++ r ++ b))).
Proof.
  intros Hscan Hp Hl.
  split; intros Hk; rewrite (replace_at_token _ _ _ _ _ _ Hscan);
    rewrite (callback_File _ _ _ _ _ Hp Hl);
    unfold banner_start, banner_end, isSvg.
  - rewrite Hk, text_eqb_refl. now rewrite <- !app_assoc.
  - rewrite text_eqb_neq.
    + now rewrite app_nil_r.
    + destruct Hk as [-> | ->]; discriminate.
Qed.

Lemma svg_fragment_banner_witness :
  replacePlaceholder 2 fs_icon (str "<i>{svg:{icon}}</i>")
  = Some (str "<i><!-- START components/app/_svg/icon/icon.svg -->"
          ++ [newline] ++ str "<svg/>"
          ++ str "<!-- END components/app/_svg/icon/icon.svg -->"
          ++ [newline] ++ str "</i>", [])
  /\ replacePlaceholder 2 fs_nested (str "<i>{app:{b}}</i>")
     = Some (str "<i>Y</i>", []).
Proof.
  split.
  - destruct (svg_fragment_banner fs_icon 0 (str "<i>{svg:{icon}}</i>")
                [Chr 60%N; Chr 105%N; Chr 62%N] (str "{svg:{icon}}")
                [Chr 60%N; Chr 47%N; Chr 105%N; Chr 62%N]
                (str "components/app/_svg/icon/icon.svg") (str "<svg/>")
                eq_refl eq_refl eq_refl) as [H _].
    rewrite (H eq_refl). reflexivity.
  - destruct (svg_fragment_banner fs_nested 0 (str "<i>{app:{b}}</i>")
                [Chr 60%N; Chr 105%N; Chr 62%N] (str "{app:{b}}")
                [Chr 60%N; Chr 47%N; Chr 105%N; Chr 62%N]
                (str "components/app/b/b.html") (str "Y")
                eq_refl eq_refl eq_refl) as [_ H].
    rewrite (H (or_introl eq_refl)). reflexivity.
Defined.

(** C6, as the specification states it, fails: with the fragment
    components/app/cat/name.html in place, the input "{app:{cat}:{name}}"
    is not replaced by the fragment's content. *)
Lemma three_part_token_counterexample :
  lookup fs_cat_name (str "components/app/cat/name.html")
  = Some (File (str "X"))
  /\ ~ exists d l,
        replacePlaceholder d fs_cat_name
          (spec_token3 (str "app") (str "cat") (str "name"))
        = Some (str "X", l).
Proof.
  split; [reflexivity|]. intros (d & l & H).
  assert (H1 : replacePlaceholder 1 fs_cat_name
                 (spec_token3 (str "app") (str "cat") (str "name"))
               = Some (str "{app:{cat}:{name}}", [])) by reflexivity.
  destruct d as [|d]; [discriminate H|].
  apply (replacePlaceholder_mono_le _ 1 (S d)) in H1; [|lia|intros []].
  rewrite H in H1. vm_compute in H1. discriminate H1.
Qed.

(** C6 (amended): every token [replacePlaceholder] recognises has the form
    {kind:{category}} with the category over word characters, '|' and '-',
    or {kind:{category:{name}}} -- the name group inside the category
    group, three closing braces -- with category and name non-empty and
    free of line terminators, and kind one of app, deferred, svg; every
    text of the first form, and every text of the second form whose
    category and name are words, is recognised as one token when it is the
    whole input, its path being
    components/<mapped kind>/<category>/<name><extension>; and for an
    existing fragment the input {kind:{category:{name}}} is replaced by the
    resolution of the fragment's text. *)
Theorem recognised_tokens kind c n :
  In kind kind_names -> word c -> word n ->
  (forall s m, is_token s m ->
     exists k, In k kind_names /\
       ((exists c', forallb is_category_char c' = true /\ m = token2 k c') \/
        (exists a b, forallb is_dot a = true /\ a <> [] /\
                     forallb is_dot b = true /\ b <> [] /\
                     m = token3 k a b))) /\
  (forall c', forallb is_category_char c' = true ->
     scan placeholder 0 (token2 kind c') = [Tok (token2 kind c')]) /\
  scan placeholder 0 (token3 kind c n) = [Tok (token3 kind c n)] /\
  filepath (token3 kind c n) =
  Val (str "components/" ++ mapped_type kind ++ str "/" ++ c ++ str "/" ++ n
       ++ (if text_eqb kind (str "svg") then str ".svg" else str ".html")) /\
  (forall fs d p content,
     filepath (token3 kind c n) = Val p ->
     lookup fs p = Some (File content) ->
     replacePlaceholder (S (S d)) fs (token3 kind c n) =
     replacePlaceholder (S d) fs
       (banner_start (token3 kind c n) p ++ content
        ++ banner_end (token3 kind c n) p)).
Proof.
  intros Hk Hc Hn. repeat split.
  - intros s m Hm. apply scan_token in Hm as (Hm & _).
    now apply matches_placeholder_inv.
  - intros c' Hc'. now apply scan_token2.
  - now apply scan_token3.
  - now apply filepath_token3.
  - intros fs d p content Hp Hl.
    change (replace placeholder (callback fs (replacePlaceholder (S d) fs))
              (token3 kind c n) = replacePlaceholder (S d) fs
       (banner_start (token3 kind c n) p ++ content
        ++ banner_end (token3 kind c n) p)).
    unfold replace. rewrite scan_token3, subst_single by assumption.
    now apply callback_File.
Qed.

Lemma recognised_tokens_witness :
  replacePlaceholder 2 fs_cat_name (str "{app:{cat:{name}}}")
  = Some (str "X", []).
Proof.
  destruct (recognised_tokens (str "app") (str "cat") (str "name"))
    as (_ & _ & _ & _ & H).
  - simpl. auto.
  - split; [reflexivity|discriminate].
  - split; [reflexivity|discriminate].
  - change (str "{app:{cat:{name}}}")
      with (token3 (str "app") (str "cat") (str "name")).
    rewrite (H fs_cat_name 0 (str "components/app/cat/name.html") (str "X"));
      reflexivity.
Defined.

(** C7: when resolving one token throws, the error is caught and handed to
    [showError], the token's own text stands in the output for that
    occurrence, and the other pieces of the input are replaced as they
    would be without it; the call returns whenever they do. *)
Theorem token_failure_is_caught fs d s ps1 m ps2 error :
  scan placeholder 0 s = ps1 ++ Tok m :: ps2 ->
  fragment fs m = Exn error ->
  replacePlaceholder (S d) fs s =
  (a <- subst (callback fs (replacePlaceholder d fs)) ps1 ;;
   _ <- showError error ;;
   b <- subst (callback fs (replacePlaceholder d fs)) ps2 ;;
   ret (a ++ m ++ b)).
Proof.
  intros Hscan Hf. rewrite (replace_at_token _ _ _ _ _ _ Hscan).
  unfold callback at 2. rewrite Hf. apply bind_ext. intros a.
  rewrite bind_assoc. apply bind_ext. intros []. apply bind_ret_l.
Qed.

Lemma token_failure_is_caught_witness :
  replacePlaceholder 2 fs_faulty (str "{app:{b}}-{app:{bad}}-{app:{b}}")
  = Some (str "Z-{app:{bad}}-Z", [FsError (str "EISDIR")]).
Proof.
  rewrite (token_failure_is_caught fs_faulty 1
             (str "{app:{b}}-{app:{bad}}-{app:{b}}")
             [Tok (str "{app:{b}}"); Chr 45%N] (str "{app:{bad}}")
             [Chr 45%N; Tok (str "{app:{b}}")] (FsError (str "EISDIR")));
    reflexivity.
Defined.

(** C8, as the specification states it, fails: fragments [a] and [b]
    include each other, and the call returns all the same.  The recursion
    ends where the call stack does; the [RangeError] is caught by the
    callback, reported, and the token it stopped at is left in the text. *)
Lemma cycle_returns_counterexample :
  cyclic fs_cycle (str "<p>{app:{a}}</p>")
  /\ replacePlaceholder 1000 fs_cycle (str "<p>{app:{a}}</p>")
     = Some (str "<p>{app:{b}}</p>", [RangeError])
  /\ replacePlaceholder 1001 fs_cycle (str "<p>{app:{a}}</p>")
     = Some (str "<p>{app:{a}}</p>", [RangeError]).
Proof.
  split; [|split; vm_compute; reflexivity].
  exists (str "{app:{b}}"). split.
  - apply rt_step. exists (str "{app:{a}}"). split.
    + vm_compute. auto 10.
    + reflexivity.
  - apply t_trans with (y := str "{app:{a}}"); apply t_step.
    + exists (str "{app:{b}}"). split; [vm_compute; auto|reflexivity].
    + exists (str "{app:{a}}"). split; [vm_compute; auto|reflexivity].
Qed.

(** C8 (amended): with room for one call on the stack,
    [replacePlaceholder] returns on every input.  When no cycle of the
    fragment-inclusion graph can be reached from the input, every call
    with room for more nested calls than there are fragment texts returns
    the same text and reports no [RangeError].  When a cycle can be
    reached, the recursion goes on until the stack is used up: every
    call reports a [RangeError], and this happens for every size of the
    stack only when a cycle can be reached.  The [RangeError] is caught
    where the stack has no room for the recursive call: it is handed to
    [showError], the token stays in the text and the other pieces are
    replaced as usual. *)
Theorem recursion_ends_at_stack_limit fs s :
  (forall d, exists out log, replacePlaceholder (S d) fs s = Some (out, log)) /\
  (~ cyclic fs s ->
   exists out log,
     ~ In RangeError log /\
     forall d, length (fragment_texts fs) < d ->
       replacePlaceholder d fs s = Some (out, log)) /\
  (cyclic fs s ->
   forall d out log,
     replacePlaceholder d fs s = Some (out, log) -> In RangeError log) /\
  ((forall d out log,
      replacePlaceholder d fs s = Some (out, log) -> In RangeError log) ->
   cyclic fs s) /\
  (forall ps1 m ps2 c,
     scan placeholder 0 s = ps1 ++ Tok m :: ps2 ->
     fragment fs m = Val (Some c) ->
     replacePlaceholder 1 fs s =
     (a <- subst (callback fs (replacePlaceholder 0 fs)) ps1 ;;
      _ <- showError RangeError ;;
      b <- subst (callback fs (replacePlaceholder 0 fs)) ps2 ;;
      ret (a ++ m ++ b))).
Proof.
  split; [|split; [|split; [|split]]].
  - intros d. apply replacePlaceholder_returns.
  - apply acyclic_result.
  - apply cyclic_overflows.
  - intros H.
    destruct (replacePlaceholder_returns fs (length (fragment_texts fs)) s)
      as (out & log & E).
    apply (overflow_cyclic _ _ _ _ _ (Nat.lt_succ_diag_r _) E).
    exact (H _ _ _ E).
  - intros ps1 m ps2 c Hscan Hf.
    rewrite (replace_at_token _ _ _ _ _ _ Hscan).
    unfold callback at 2. rewrite Hf. cbn [replacePlaceholder].
    apply bind_ext. intros a.
    rewrite bind_assoc. apply bind_ext. intros []. apply bind_ret_l.
Qed.

Lemma recursion_ends_at_stack_limit_witness :
  (exists out log,
     ~ In RangeError log /\
     forall d, length (fragment_texts fs_nested) < d ->
       replacePlaceholder d fs_nested (str "<p>{app:{a}}</p>")
       = Some (out, log))
  /\ In RangeError [RangeError].
Proof.
  split.
  - apply (recursion_ends_at_stack_limit fs_nested (str "<p>{app:{a}}</p>")).
    intros Hc.
    assert (H : replacePlaceholder 5 fs_nested (str "<p>{app:{a}}</p>")
                = Some (str "<p>Y</p>", [])) by reflexivity.
    apply (cyclic_overflows _ _ Hc) in H. destruct H.
  - apply (recursion_ends_at_stack_limit fs_cycle (str "<p>{app:{a}}</p>"))
      with (d := 3) (out := str "<p>{app:{a}}</p>").
    + exists (str "{app:{b}}"). split.
      * apply rt_step. exists (str "{app:{a}}"). split.
        -- vm_compute. auto 10.
        -- reflexivity.
      * apply t_trans with (y := str "{app:{a}}"); apply t_step.
        -- exists (str "{app:{b}}"). split; [vm_compute; auto|reflexivity].
        -- exists (str "{app:{a}}"). split; [vm_compute; auto|reflexivity].
    + reflexivity.
Defined.

(** C9: [replacePlaceholder] is not idempotent: the resolved content of a
    fragment can contain a token, put together from the fragment's own text
    and the content of a fragment it includes, whose fragment exists. *)
Theorem not_idempotent :
  exists fs s out out',
    (forall d, replacePlaceholder (3 + d) fs s = Some (out, [])) /\
    (forall d, replacePlaceholder (3 + d) fs out = Some (out', [])) /\
    out <> out'.
Proof.
  exists fs_glue, (str "<p>{app:{a}}</p>"), (str "<p>{app:{b}}</p>"),
    (str "<p>Z</p>").
  repeat split; try discriminate; intros d; reflexivity.
Qed.

(** C10: the two-part form accepts an empty category: "{app:{}}" is one
    token with empty category and name, its fragment path is the join of
    'components', 'app', '' and '.html', and it is returned verbatim when
    nothing exists at that path. *)
Theorem empty_category_token fs d :
  scan placeholder 0 (str "{app:{}}") = [Tok (str "{app:{}}")] /\
  token_parts (str "{app:{}}") = [str "app"; []] /\
  token_file (str "{app:{}}") = Some [] /\
  filepath (str "{app:{}}")
  = path_join [Some (str "components"); Some (str "app"); Some [];
               Some (str ".html")] /\
  filepath (str "{app:{}}") = Val (str "components/app/.html") /\
  (existsSync fs (str "components/app/.html") = false ->
   replacePlaceholder (S d) fs (str "{app:{}}") = Some (str "{app:{}}", [])).
Proof.
  repeat split; try reflexivity.
  intros He. apply all_missing_identity. intros m Hm. vm_compute in Hm. destruct Hm as [Hm|[]].
  injection Hm as <-. exists (str "components/app/.html"). split; auto.
Qed.

Lemma empty_category_token_witness :
  replacePlaceholder 1 fs_nested (str "{app:{}}") = Some (str "{app:{}}", []).
Proof.
  apply (empty_category_token fs_nested 0). reflexivity.
Defined.

(** * Further properties of [replacePlaceholder] *)

(** ** The extension of a fragment path *)

Lemma split_snoc sep e : forall s,
  free_of sep e ->
  exists init l, split sep s = init ++ [l] /\ split sep (s ++ e) = init ++ [l ++ e].
Proof.
  intros s He. induction s as [|c s (init & l & Hs & Hse)]; simpl.
  - exists [], []. split; [reflexivity|]. simpl. now apply split_single.
  - destruct (N.eqb c sep).
    + exists ([] :: init), l. simpl. now rewrite Hs, Hse.
    + rewrite Hs, Hse. destruct init as [|h init]; simpl.
      * exists [], (c :: l). auto.
      * exists ((c :: h) :: init), l. auto.
Qed.

(** A last segment that is neither empty nor a dot segment stays last. *)
Lemma normalize_segments_snoc allow z : forall segs out,
  z <> [] -> z <> [dot] -> z <> [dot; dot] ->
  normalize_segments allow (segs ++ [z]) out
  = normalize_segments allow segs out ++ [z].
Proof.
  intros segs out H0 H1 H2. revert out.
  induction segs as [|seg segs IH]; intros out; simpl.
  - rewrite !text_eqb_neq by assumption. simpl. reflexivity.
  - destruct (text_eqb seg [] || text_eqb seg [dot]); [apply IH|].
    destruct (text_eqb seg [dot; dot]); [|apply IH].
    destruct out as [|last out]; [apply IH|].
    destruct (text_eqb last [dot; dot]); apply IH.
Qed.

Lemma join_with_snoc sep segs z :
  exists pre, join_with sep (segs ++ [z]) = pre ++ z.
Proof.
  induction segs as [|a segs (pre & IH)]; simpl.
  - exists []. reflexivity.
  - destruct (segs ++ [z]) as [|b l] eqn:E.
    + destruct segs; discriminate.
    + exists (a ++ sep ++ pre). rewrite IH. now rewrite <- !app_assoc.
Qed.

Lemma join_with_last_arg sep : forall parts z,
  z <> [] -> exists pre, join_with sep (filter nonempty (parts ++ [z])) = pre ++ z.
Proof.
  intros parts z Hz. rewrite filter_app. simpl.
  destruct z as [|c z]; [congruence|]. simpl. apply join_with_snoc.
Qed.

(** [normalize] keeps an ending that has no separator and at least three
    characters. *)
Lemma normalize_keeps_ending pre e :
  free_of slash e -> 3 <= length e ->
  exists pre', normalize (pre ++ e) = pre' ++ e.
Proof.
  intros He Hlen. unfold normalize.
  destruct (pre ++ e) as [|first path] eqn:E.
  { apply app_eq_nil in E as [_ ->]. simpl in Hlen. lia. }
  rewrite <- E. cbv zeta.
  destruct (split_snoc slash e pre He) as (init & l & _ & ->).
  assert (Hz : forall x, l ++ e <> x \/ 3 <= length x).
  { intros x. destruct (text_eq_dec (l ++ e) x) as [<-|]; auto.
    right. rewrite length_app. lia. }
  rewrite normalize_segments_snoc.
  2: { destruct (Hz []) as [H|H]; auto. simpl in H. lia. }
  2: { destruct (Hz [dot]) as [H|H]; auto. simpl in H. lia. }
  2: { destruct (Hz [dot; dot]) as [H|H]; auto. simpl in H. lia. }
  match goal with
  | |- context [join_with ?sp (?segs ++ [?z])] =>
      destruct (join_with_snoc sp segs z) as (q & Hq);
      unfold text, code_unit in *; rewrite !Hq
  end.
  assert (Hlast : N.eqb (last (pre ++ e) 0%N) slash = false).
  { apply N.eqb_neq. rewrite last_app_r by (intros ->; simpl in Hlen; lia).
    apply last_free_of; auto. intros ->. simpl in Hlen. lia. }
  rewrite Hlast.
  destruct (q ++ l ++ e) as [|x y] eqn:Eq.
  { apply app_eq_nil in Eq as [_ Eq]. apply app_eq_nil in Eq as [_ ->].
    simpl in Hlen. lia. }
  rewrite <- Eq. destruct (N.eqb first slash).
  - exists (slash :: q ++ l). simpl. now rewrite <- !app_assoc.
  - exists (q ++ l). now rewrite <- !app_assoc.
Qed.

(** Whatever the token, the path read ends in the extension of its kind. *)
Lemma filepath_extension m p :
  filepath m = Val p -> exists pre, p = pre ++ extension m.
Proof.
  unfold filepath, path_join. simpl validate_strings.
  destruct (token_folder m) as [folder|]; [|discriminate].
  cbv beta iota.
  set (e := extension m).
  assert (He : free_of slash e /\ 3 <= length e).
  { unfold e, extension. destruct (isSvg m); split; try reflexivity;
      simpl; lia. }
  destruct He as [He Hlen].
  destruct (join_with_last_arg [slash]
              [str "components"; mapped_type (token_type m); folder]
              (to_string (token_file m) ++ e)) as (pre & Hj).
  { intros E. apply app_eq_nil in E as [_ ->]. simpl in Hlen. lia. }
  simpl app in Hj.
  assert (Hne : pre ++ to_string (token_file m) ++ e <> []).
  { intros E. apply app_eq_nil in E as [_ E]. apply app_eq_nil in E as [_ ->].
    simpl in Hlen. lia. }
  unfold text, code_unit in *.
  match type of Hj with
  | join_with _ ?L = _ => destruct L as [|t l0] eqn:F
  end.
  { exfalso. exact (Hne (eq_sym Hj)). }
  rewrite Hj. intros [= <-]. rewrite app_assoc.
  now apply normalize_keeps_ending.
Qed.

(** ** What ends up in the error log *)

Lemma subst_log (P : exn -> Prop) f ps : forall out log,
  (forall m r l, In (Tok m) ps -> f m = Some (r, l) -> Forall P l) ->
  subst f ps = Some (out, log) -> Forall P log.
Proof.
  induction ps as [|[c|m] ps IH]; simpl; intros out log Hf H.
  - injection H as <- <-. constructor.
  - destruct (subst f ps) as [[a l]|] eqn:E; [|discriminate].
    simpl in H. injection H as <- <-. rewrite app_nil_r. eapply IH; eauto.
  - destruct (f m) as [[r lr]|] eqn:Em; [|discriminate]. simpl in H.
    destruct (subst f ps) as [[a l]|] eqn:E; [|discriminate].
    simpl in H. injection H as <- <-. rewrite app_nil_r.
    apply Forall_app. split; [eapply Hf; eauto|eapply IH; eauto].
Qed.

(** A token of a scan can only fail in [readFileSync]. *)
Lemma fragment_Exn fs s m e :
  is_token s m -> fragment fs m = Exn e ->
  exists p msg, e = FsError msg /\ lookup fs p = Some (Unreadable msg).
Proof.
  intros Hm. destruct (filepath_defined _ _ Hm) as (p & Hp).
  unfold fragment, existsSync, readFileSync. rewrite Hp.
  destruct (lookup fs p) as [[c|msg]|] eqn:E; try discriminate.
  intros [= <-]. eauto.
Qed.

Lemma replacePlaceholder_log fs : forall d s out log,
  replacePlaceholder d fs s = Some (out, log) ->
  Forall (fun e => e = RangeError \/
            exists p msg,
              e = FsError msg /\ lookup fs p = Some (Unreadable msg)) log.
Proof.
  induction d as [|d IH]; intros s out log H; [discriminate|].
  change (subst (callback fs (replacePlaceholder d fs))
            (scan placeholder 0 s) = Some (out, log)) in H.
  revert H. apply subst_log.
  intros m r l Hm. unfold callback.
  destruct (fragment fs m) as [[c|]|e] eqn:F.
  - destruct (replacePlaceholder d fs c) as [[r' l']|] eqn:E.
    + intros [= <- <-]. exact (IH _ _ _ E).
    + intros [= <- <-]. constructor; [now left|constructor].
  - intros [= <- <-]. constructor.
  - intros [= <- <-]. constructor; [|constructor].
    right. eapply fragment_Exn; eauto.
Qed.

Lemma fragment_texts_length fs : length (fragment_texts fs) <= 2 * length fs.
Proof.
  unfold fragment_texts. induction fs as [|[p [c|msg]] fs IH]; simpl in *; lia.
Qed.

Lemma is_dot_kind kind : In kind kind_names -> forallb is_dot kind = true.
Proof. intros [<-|[<-|[<-|[]]]]; reflexivity. Qed.

Lemma kind_length kind : In kind kind_names -> 3 <= length kind.
Proof. intros [<-|[<-|[<-|[]]]]; simpl; lia. Qed.

(** X1: whatever the token, the path it is read from ends in the extension
    of its kind: '.svg' for svg, '.html' for app and deferred. *)
Theorem fragment_path_ends_in_extension m p :
  filepath m = Val p ->
  (isSvg m = true -> exists pre, p = pre ++ str ".svg") /\
  (isSvg m = false -> exists pre, p = pre ++ str ".html").
Proof.
  intros Hp. destruct (filepath_extension _ _ Hp) as (pre & ->).
  unfold extension. split; intros ->; eauto.
Qed.

Lemma fragment_path_ends_in_extension_witness :
  filepath (str "{svg:{../icons/./set:{logo}}}")
  = Val (str "components/app/icons/set/logo.svg")
  /\ exists pre, str "components/app/icons/set/logo.svg" = pre ++ str ".svg".
Proof.
  split; [reflexivity|].
  apply (fragment_path_ends_in_extension (str "{svg:{../icons/./set:{logo}}}"));
    reflexivity.
Defined.

(** X2: when no existing path ends in '.html' or '.svg', every input is
    returned as it is, without any error reported. *)
Theorem identity_without_fragment_files fs d s :
  (forall pre, existsSync fs (pre ++ str ".html") = false
               /\ existsSync fs (pre ++ str ".svg") = false) ->
  replacePlaceholder (S d) fs s = Some (s, []).
Proof.
  intros H. apply all_missing_identity. intros m Hm.
  destruct (filepath_defined _ _ Hm) as (p & Hp). exists p. split; auto.
  destruct (filepath_extension _ _ Hp) as (pre & ->).
  unfold extension. destruct (isSvg m); apply H.
Qed.

Lemma identity_without_fragment_files_witness :
  replacePlaceholder 1 [(str "components/app/a/a.js", File (str "x"))]
    (str "<p>{app:{a}}</p>{svg:{a}}")
  = Some (str "<p>{app:{a}}</p>{svg:{a}}", []).
Proof.
  apply identity_without_fragment_files.
  intros pre. unfold existsSync. simpl. unfold text_eqb.
  split.
  - destruct (text_eq_dec (str "components/app/a/a.js") (pre ++ str ".html"))
      as [E|]; [|reflexivity].
    apply (f_equal (@rev N)) in E. rewrite rev_app_distr in E.
    vm_compute in E. discriminate E.
  - destruct (text_eq_dec (str "components/app/a/a.js") (pre ++ str ".svg"))
      as [E|]; [|reflexivity].
    apply (f_equal (@rev N)) in E. rewrite rev_app_distr in E.
    vm_compute in E. discriminate E.
Defined.

(** X3: every error a call reports is the failure to read a path that
    exists but is not a readable file, or the [RangeError] of a recursive
    call the stack had no room for; [path.join] never throws for a token
    of the pattern.  A [RangeError] is reported exactly when fragments
    nest as deep as the stack has room for calls, and a call that reports
    none on a file system without unreadable paths reports nothing. *)
Theorem reported_errors_classified fs d s out log :
  replacePlaceholder d fs s = Some (out, log) ->
  (forall e, In e log ->
     e = RangeError \/
     exists p msg, e = FsError msg /\ lookup fs p = Some (Unreadable msg)) /\
  (In RangeError log <-> exists l y, length l = d /\ chain fs s l y) /\
  ((forall p msg, lookup fs p <> Some (Unreadable msg)) ->
   ~ In RangeError log -> log = []).
Proof.
  intros H. pose proof (replacePlaceholder_log _ _ _ _ _ H) as F.
  rewrite Forall_forall in F.
  split; [exact F|]. split.
  - split.
    + apply (overflow_chain _ _ _ _ _ H).
    + intros (l & y & Hlen & Hch).
      apply (chain_overflow fs d s l y out log Hch); [lia|exact H].
  - intros Hfs Hr. destruct log as [|e log]; auto.
    destruct (F e (or_introl eq_refl)) as [->|(p & msg & _ & Hl)].
    + destruct Hr. now left.
    + destruct (Hfs _ _ Hl).
Qed.

Lemma reported_errors_classified_witness :
  FsError (str "EISDIR") = RangeError \/
  exists p msg,
    FsError (str "EISDIR") = FsError msg
    /\ lookup fs_faulty p = Some (Unreadable msg).
Proof.
  apply (reported_errors_classified fs_faulty 2
           (str "{app:{b}}-{app:{bad}}") (str "Z-{app:{bad}}")
           [FsError (str "EISDIR")]).
  - reflexivity.
  - simpl. auto.
Defined.

(** X4: the room on the call stack matters only when it is used up: a call
    that reports no [RangeError] returns the same text and log with any
    more room, no cycle can be reached from its input, and room for
    1 + 2n nested calls is enough on a file system of n entries. *)
Theorem stack_room_matters_only_when_used_up fs d s out log :
  replacePlaceholder d fs s = Some (out, log) -> ~ In RangeError log ->
  (forall d', d <= d' -> replacePlaceholder d' fs s = Some (out, log)) /\
  ~ cyclic fs s /\
  replacePlaceholder (S (2 * length fs)) fs s = Some (out, log).
Proof.
  intros H Hlog.
  assert (Hacyclic : ~ cyclic fs s).
  { intros Hc. apply Hlog. exact (cyclic_overflows _ _ Hc _ _ _ H). }
  split; [|split; [exact Hacyclic|]].
  - intros d' Hd. now apply (replacePlaceholder_mono_le fs d d').
  - destruct (acyclic_result _ _ Hacyclic) as (out' & log' & _ & H').
    pose proof (fragment_texts_length fs) as Hlen.
    pose proof (H' (S (2 * length fs) + d) ltac:(lia)) as H1.
    rewrite (replacePlaceholder_mono_le fs d (S (2 * length fs) + d)
               s out log ltac:(lia) H Hlog) in H1.
    injection H1 as -> ->. apply H'. lia.
Qed.

Lemma stack_room_matters_only_when_used_up_witness :
  replacePlaceholder 5 fs_nested (str "<p>{app:{a}}</p>")
  = Some (str "<p>Y</p>", []).
Proof.
  apply (stack_room_matters_only_when_used_up fs_nested 3
           (str "<p>{app:{a}}</p>") (str "<p>Y</p>") []).
  - reflexivity.
  - intros [].
Defined.

(** X5: a token never contains a line terminator, is at least eight code
    units long, opens with a brace, closes with two, and is a substring of
    the input. *)
Theorem token_shape s m :
  is_token s m ->
  forallb is_dot m = true /\ 8 <= length m /\
  (exists body, m = str "{" ++ body ++ str "}}") /\
  (exists pre post, s = pre ++ m ++ post).
Proof.
  intros Hm. apply scan_token in Hm as (Hm & Hsub).
  destruct (matches_placeholder_inv _ Hm)
    as (kind & Hk & [(c & Hc & ->)|(a & b & Ha & Ha0 & Hb & Hb0 & ->)]).
  - repeat split; auto.
    + unfold token2. rewrite !forallb_app, (is_dot_kind _ Hk).
      replace (forallb is_dot c) with true; [reflexivity|].
      symmetry. revert Hc. apply forallb_weaken. intros x Hx.
      unfold is_category_char in Hx. rewrite !orb_true_iff, !N.eqb_eq in Hx.
      destruct Hx as [[Hx|Hx]|Hx]; [now apply is_word_dot|subst..];
        reflexivity.
    + unfold token2. rewrite !length_app. pose proof (kind_length _ Hk).
      simpl. lia.
    + exists (kind ++ str ":{" ++ c). unfold token2.
      now rewrite <- !app_assoc.
  - repeat split; auto.
    + unfold token3. rewrite !forallb_app, (is_dot_kind _ Hk), Ha, Hb.
      reflexivity.
    + unfold token3. rewrite !length_app. pose proof (kind_length _ Hk).
      simpl. lia.
    + exists (kind ++ str ":{" ++ a ++ str ":{" ++ b ++ str "}").
      unfold token3. now rewrite <- !app_assoc.
Qed.

Lemma token_shape_witness :
  forallb is_dot (str "{app:{}}") = true /\ 8 <= length (str "{app:{}}") /\
  (exists body, str "{app:{}}" = str "{" ++ body ++ str "}}") /\
  (exists pre post, str "a{app:{}}b" = pre ++ str "{app:{}}" ++ post).
Proof.
  apply (token_shape (str "a{app:{}}b") (str "{app:{}}")).
  vm_compute. auto.
Defined.

(** * Further functions of the scripts *)

(** ** Splitting and joining *)

Lemma join_split sep s : join_with [sep] (split sep s) = s.
Proof.
  induction s as [|c s IH]; [reflexivity|]. cbn [split].
  destruct (split_cons sep s) as (h & t & E). rewrite E in *.
  destruct (N.eqb_spec c sep) as [->|_].
  - change (sep :: join_with [sep] (h :: t) = sep :: s). now rewrite IH.
  - destruct t as [|h' t].
    + simpl in *. now rewrite IH.
    + change (c :: join_with [sep] (h :: h' :: t) = c :: s). now rewrite IH.
Qed.

Lemma split_app_sep sep b : forall a,
  split sep (a ++ sep :: b) = split sep a ++ split sep b.
Proof.
  induction a as [|c a IH]; simpl.
  - now rewrite N.eqb_refl.
  - rewrite IH. destruct (N.eqb c sep); auto.
    destruct (split_cons sep a) as (h & t & ->). reflexivity.
Qed.

Lemma join_with_app sep : forall l1 l2,
  l1 <> [] -> l2 <> [] ->
  join_with sep (l1 ++ l2) = join_with sep l1 ++ sep ++ join_with sep l2.
Proof.
  induction l1 as [|a [|b l1] IH]; intros l2 H1 H2; [congruence| |].
  - destruct l2; [congruence|reflexivity].
  - change (join_with sep ((a :: b :: l1) ++ l2))
      with (a ++ sep ++ join_with sep ((b :: l1) ++ l2)).
    rewrite IH by (auto; discriminate).
    change (join_with sep (a :: b :: l1))
      with (a ++ sep ++ join_with sep (b :: l1)).
    now rewrite <- !app_assoc.
Qed.

Lemma split_not_nil sep s : split sep s <> [].
Proof. destruct (split_cons sep s) as (h & t & ->). discriminate. Qed.

(** ** [recolorScriptInfo] *)

Lemma recolorScriptInfo_lines ch m :
  recolorScriptInfo ch (Some m)
  = join_with [newline] (map (recolorLine ch) (split newline m)).
Proof. destruct m; reflexivity. Qed.

(** X6: a message comes back unchanged when none of its lines starts with
    one of the three task markers, or when the styles leave the marked
    lines as they are (a terminal without colours); a missing message
    gives the empty text. *)
Theorem recolorScriptInfo_unchanged ch m :
  (forall line, In line (split newline m) ->
     (startsWith line messageStartTask = false
      /\ startsWith line messageEndTask = false
      /\ startsWith line messageAbortTask = false)
     \/ (green_underline ch line = line /\ red ch line = line)) ->
  recolorScriptInfo ch (Some m) = m /\ recolorScriptInfo ch None = [].
Proof.
  intros H. split; [|reflexivity].
  rewrite recolorScriptInfo_lines.
  rewrite <- (join_split newline m) at 2. f_equal.
  rewrite <- (map_id (split newline m)) at 2.
  apply map_ext_in. intros line Hin. unfold recolorLine.
  destruct (H line Hin) as [(-> & -> & ->)|[Hg Hr]]; [reflexivity|].
  destruct (_ || _); auto.
  destruct (startsWith line messageAbortTask); auto.
Qed.

Lemma recolorScriptInfo_unchanged_witness :
  recolorScriptInfo ansi_chalk
    (Some (str "> build" ++ [newline] ++ str "done"))
  = str "> build" ++ [newline] ++ str "done".
Proof.
  apply (recolorScriptInfo_unchanged ansi_chalk).
  intros line [<-|[<-|[]]]; left; repeat split; reflexivity.
Defined.

(** X7: the lines of a message are recoloured one by one: the result for
    two texts joined by a newline is the two results joined by a
    newline. *)
Theorem recolorScriptInfo_linewise ch a b :
  recolorScriptInfo ch (Some (a ++ newline :: b))
  = recolorScriptInfo ch (Some a) ++ newline :: recolorScriptInfo ch (Some b).
Proof.
  rewrite !recolorScriptInfo_lines, split_app_sep, map_app.
  rewrite join_with_app; [reflexivity| |].
  - destruct (split_cons newline a) as (h & t & ->). discriminate.
  - destruct (split_cons newline b) as (h & t & ->). discriminate.
Qed.

(** X8: a line that starts with the start or the end marker is styled green
    and underlined, a line that starts with the abort marker red, whatever
    follows the marker on the line. *)
Theorem recolorScriptInfo_markers ch rest :
  free_of newline rest ->
  recolorScriptInfo ch (Some (messageStartTask ++ rest))
  = green_underline ch (messageStartTask ++ rest)
  /\ recolorScriptInfo ch (Some (messageEndTask ++ rest))
     = green_underline ch (messageEndTask ++ rest)
  /\ recolorScriptInfo ch (Some (messageAbortTask ++ rest))
     = red ch (messageAbortTask ++ rest).
Proof.
  intros Hrest.
  assert (Hline : forall marker, free_of newline marker ->
            recolorScriptInfo ch (Some (marker ++ rest))
            = recolorLine ch (marker ++ rest)).
  { intros marker Hm. rewrite recolorScriptInfo_lines.
    rewrite split_single by now apply free_of_app. reflexivity. }
  rewrite !Hline by reflexivity. unfold recolorLine, startsWith.
  rewrite !drop_prefix_app.
  replace (drop_prefix messageStartTask (messageAbortTask ++ rest))
    with (@None text) by reflexivity.
  replace (drop_prefix messageEndTask (messageAbortTask ++ rest))
    with (@None text) by reflexivity.
  replace (drop_prefix messageStartTask (messageEndTask ++ rest))
    with (@None text) by reflexivity.
  simpl orb. cbv iota. auto.
Qed.

Lemma recolorScriptInfo_markers_witness :
  recolorScriptInfo ansi_chalk (Some (str ">>> Aborting task: lint"))
  = escape "[31m" ++ str ">>> Aborting task: lint" ++ escape "[39m".
Proof.
  apply (recolorScriptInfo_markers ansi_chalk (str ": lint")). reflexivity.
Defined.

(** ** [getMediaQuery] *)

Lemma strip_quotes_filter s :
  strip_quotes s
  = filter (fun c => negb (N.eqb c 39 || N.eqb c 34 || N.eqb c 44)) s.
Proof.
  induction s as [|c s IH]; simpl; auto.
  destruct (N.eqb c 39 || N.eqb c 34 || N.eqb c 44); simpl; now rewrite IH.
Qed.

(** X9: [getMediaQuery] returns the font family without its single quotes,
    double quotes and commas, the other characters in their order; the
    result holds none of the three, a value without them is returned as it
    is, and without [getComputedStyle] the call throws. *)
Theorem getMediaQuery_strips fontFamily :
  exists r,
    getMediaQuery (Some fontFamily) = Returned r /\
    r = filter (fun c => negb (N.eqb c 39 || N.eqb c 34 || N.eqb c 44))
          fontFamily /\
    (forall c, In c r -> c <> 39%N /\ c <> 34%N /\ c <> 44%N) /\
    getMediaQuery (Some r) = Returned r /\
    getMediaQuery None = @TypeError text.
Proof.
  exists (strip_quotes fontFamily). repeat split.
  - apply strip_quotes_filter.
  - rewrite strip_quotes_filter in H. apply filter_In in H as [_ H].
    apply negb_true_iff in H. rewrite !orb_false_iff, !N.eqb_neq in H. tauto.
  - rewrite strip_quotes_filter in H. apply filter_In in H as [_ H].
    apply negb_true_iff in H. rewrite !orb_false_iff, !N.eqb_neq in H. tauto.
  - rewrite strip_quotes_filter in H. apply filter_In in H as [_ H].
    apply negb_true_iff in H. rewrite !orb_false_iff, !N.eqb_neq in H. tauto.
  - simpl. f_equal. rewrite !strip_quotes_filter.
    induction fontFamily as [|c s IH]; simpl; auto.
    destruct (N.eqb c 39 || N.eqb c 34 || N.eqb c 44) eqn:E; simpl; auto.
    now rewrite E, IH.
Qed.

(** ** File names *)

Lemma search_at_end_iff lit s :
  search_at_end lit s = true <-> exists pre, s = pre ++ lit.
Proof.
  split.
  - induction s as [|c s IH]; simpl.
    + destruct (drop_prefix lit []) as [[|x r]|] eqn:E; try discriminate.
      intros _. exists []. apply drop_prefix_Some in E.
      now rewrite app_nil_r in E.
    + destruct (drop_prefix lit (c :: s)) as [[|x r]|] eqn:E.
      * intros _. exists []. apply drop_prefix_Some in E.
        now rewrite app_nil_r in E.
      * intros H. destruct (IH H) as (pre & ->). now exists (c :: pre).
      * intros H. destruct (IH H) as (pre & ->). now exists (c :: pre).
  - intros (pre & ->). induction pre as [|c pre IH]; simpl.
    + rewrite <- (app_nil_r lit) at 2.
      destruct lit as [|x lit].
      * reflexivity.
      * change (match run (Lit (x :: lit)) ((x :: lit) ++ [])
                        (fun rest => match rest with
                                     | [] => Some tt
                                     | _ :: _ => None
                                     end) with
                | Some _ => true
                | None => search_at_end (x :: lit) (lit ++ [])
                end = true).
        now rewrite run_Lit_app.
    + rewrite IH. now destruct (drop_prefix lit (c :: pre ++ lit)) as [[|]|].
Qed.

Lemma drop_prefix_app_r l t : forall s r,
  drop_prefix l s = Some r -> drop_prefix l (s ++ t) = Some (r ++ t).
Proof.
  induction l as [|a l IH]; intros s r; simpl.
  - now intros [= ->].
  - destruct s as [|b s]; [discriminate|]. simpl.
    destruct (N.eqb a b); [apply IH|discriminate].
Qed.

(** An occurrence of "scss" cannot reach into the ending ".scss". *)
Lemma scss_not_across s :
  drop_prefix (str "scss") s = None ->
  drop_prefix (str "scss") (s ++ str ".scss") = None.
Proof.
  destruct s as [|a [|b [|c [|d s]]]]; cbn [app drop_prefix str map list_ascii_of_string];
    intros H; revert H;
    repeat match goal with
    | |- context [N.eqb ?x ?y] => destruct (N.eqb_spec x y); subst
    end; auto; try discriminate.
Qed.

(** A pattern does not start a text shorter than itself, and whether it
    starts a text is decided by as many characters as it has. *)
Lemma drop_prefix_short l : forall s,
  length s < length l -> drop_prefix l s = None.
Proof.
  induction l as [|a l IH]; intros [|b s]; simpl; intros H; try lia; auto.
  destruct (N.eqb a b); auto. apply IH. lia.
Qed.

Lemma drop_prefix_None_app l : forall s t,
  length l <= length s -> drop_prefix l s = None ->
  drop_prefix l (s ++ t) = None.
Proof.
  induction l as [|a l IH]; intros s t Hlen; simpl; [discriminate|].
  destruct s as [|b s]; simpl in *; [lia|].
  destruct (N.eqb a b); auto. apply IH. lia.
Qed.

Lemma drop_prefix_None_app_inv l s t :
  drop_prefix l (s ++ t) = None -> drop_prefix l s = None.
Proof.
  destruct (drop_prefix l s) as [r|] eqn:E; auto.
  rewrite (drop_prefix_app_r _ _ _ _ E). discriminate.
Qed.

Lemma text_includes_eq s pattern :
  text_includes s pattern
  = match drop_prefix pattern s with
    | Some _ => true
    | None => match s with
              | [] => false
              | _ :: s' => text_includes s' pattern
              end
    end.
Proof. destruct s; reflexivity. Qed.

Lemma replace_first_eq pattern replacement s :
  replace_first pattern replacement s
  = match drop_prefix pattern s with
    | Some rest => replacement ++ rest
    | None => match s with
              | [] => []
              | c :: s' => c :: replace_first pattern replacement s'
              end
    end.
Proof. destruct s; reflexivity. Qed.

Lemma text_includes_short pattern : forall s,
  length s < length pattern -> text_includes s pattern = false.
Proof.
  induction s as [|c s IH]; intros H; rewrite text_includes_eq,
    (drop_prefix_short _ _ H); [reflexivity|].
  apply IH. simpl in H. lia.
Qed.

(** [replace] with a string pattern replaces the occurrence before which
    the pattern does not occur. *)
Lemma replace_first_at q x replacement rest : forall pre,
  text_includes (pre ++ q) (q ++ [x]) = false ->
  replace_first (q ++ [x]) replacement (pre ++ (q ++ [x]) ++ rest)
  = pre ++ replacement ++ rest.
Proof.
  induction pre as [|c pre IH]; intros H.
  - rewrite app_nil_l, replace_first_eq, drop_prefix_app. reflexivity.
  - rewrite text_includes_eq in H.
    destruct (drop_prefix (q ++ [x]) ((c :: pre) ++ q)) eqn:E;
      [discriminate|].
    rewrite replace_first_eq.
    replace ((c :: pre) ++ (q ++ [x]) ++ rest)
      with (((c :: pre) ++ q) ++ [x] ++ rest)
      by now rewrite <- !app_assoc.
    assert (Hlen : length (q ++ [x]) <= length ((c :: pre) ++ q))
      by (rewrite !length_app; simpl; lia).
    rewrite (drop_prefix_None_app _ _ ([x] ++ rest) Hlen E).
    replace (((c :: pre) ++ q) ++ [x] ++ rest)
      with (c :: pre ++ (q ++ [x]) ++ rest)
      by (simpl; now rewrite <- !app_assoc).
    simpl app. f_equal. exact (IH H).
Qed.

(** A pattern that occurs has a first occurrence. *)
Lemma first_occurrence q x : forall s,
  text_includes s (q ++ [x]) = true ->
  exists pre rest,
    s = pre ++ (q ++ [x]) ++ rest /\
    text_includes (pre ++ q) (q ++ [x]) = false.
Proof.
  induction s as [|c s IH]; rewrite text_includes_eq.
  - rewrite drop_prefix_short by (rewrite length_app; simpl; lia).
    discriminate.
  - destruct (drop_prefix (q ++ [x]) (c :: s)) as [t|] eqn:E.
    + intros _. exists [], t. split.
      * apply drop_prefix_Some in E. exact E.
      * apply text_includes_short. rewrite !length_app. simpl. lia.
    + intros H. destruct (IH H) as (pre & rest & -> & Hpre).
      exists (c :: pre), rest. split; [reflexivity|].
      rewrite text_includes_eq.
      replace (c :: pre ++ (q ++ [x]) ++ rest)
        with (((c :: pre) ++ q) ++ [x] ++ rest) in E
        by (simpl; now rewrite <- !app_assoc).
      rewrite (drop_prefix_None_app_inv _ _ _ E). exact Hpre.
Qed.

(** X10: compileSass names the css file by replacing the first "scss" of
    the file name.  For [base.scss] this gives [base.css] when "scss" does
    not occur in [base]; when it does, [base] is [pre ++ "scss" ++ rest]
    with no occurrence before that one, and the name is
    [pre ++ "css" ++ rest ++ ".scss"]: the occurrence inside [base] is
    replaced and the name keeps its ending ".scss", although the file is
    taken for compilation. *)
Theorem css_filename_of_scss base :
  hasFileCorrectExtension (base ++ str ".scss") = true /\
  (text_includes base (str "scss") = false ->
   css_filename (base ++ str ".scss") = base ++ str ".css") /\
  (forall pre rest,
     base = pre ++ str "scss" ++ rest ->
     text_includes (pre ++ str "scs") (str "scss") = false ->
     css_filename (base ++ str ".scss")
     = pre ++ str "css" ++ rest ++ str ".scss") /\
  (text_includes base (str "scss") = true ->
   exists pre rest,
     base = pre ++ str "scss" ++ rest /\
     text_includes (pre ++ str "scs") (str "scss") = false).
Proof.
  split; [|split; [|split]].
  - apply search_at_end_iff. eauto.
  - unfold css_filename. induction base as [|c base IH]; [reflexivity|].
    cbn [text_includes]. destruct (drop_prefix (str "scss") (c :: base)) eqn:E;
      [discriminate|].
    intros H. cbn [replace_first app].
    change (c :: base ++ str ".scss") with ((c :: base) ++ str ".scss").
    rewrite (scss_not_across _ E). simpl app. now rewrite IH.
  - intros pre rest -> H. unfold css_filename.
    transitivity (replace_first (str "scs" ++ [115%N]) (str "css")
                    (pre ++ (str "scs" ++ [115%N]) ++ rest ++ str ".scss")).
    + f_equal. rewrite <- !app_assoc. reflexivity.
    + apply (replace_first_at (str "scs") 115%N (str "css")
               (rest ++ str ".scss") pre H).
  - change (str "scss") with (str "scs" ++ [115%N]).
    apply first_occurrence.
Qed.

Lemma css_filename_of_scss_witness :
  css_filename (str "main.scss") = str "main.css"
  /\ css_filename (str "my-scss-tools.scss") = str "my-css-tools.scss".
Proof.
  split.
  - apply (css_filename_of_scss (str "main")). reflexivity.
  - apply (css_filename_of_scss (str "my-scss-tools"))
      with (pre := str "my-") (rest := str "-tools"); reflexivity.
Defined.

(** X11: svgSprite takes as the id of a sprite item the file name without
    its last extension; a file name without a dot gives the empty id. *)
Theorem spriteItemId_strips_extension base ext :
  free_of dot ext ->
  spriteItemId (base ++ dot :: ext) = base /\ spriteItemId ext = [].
Proof.
  intros Hext. unfold spriteItemId. split.
  - rewrite split_app_sep, (split_single _ _ Hext), removelast_last.
    apply join_split.
  - now rewrite (split_single _ _ Hext).
Qed.

Lemma spriteItemId_strips_extension_witness :
  spriteItemId (str "button.classic.svg") = str "button.classic"
  /\ spriteItemId (str "svg") = [].
Proof.
  apply (spriteItemId_strips_extension (str "button.classic") (str "svg")).
  reflexivity.
Defined.

(** ** [replaceHtml] *)

Lemma replaceHtml_files_app write ch cfg depth pathBuild pathWorking :
  forall l1 l2 st,
    replaceHtml_files write ch cfg depth pathBuild pathWorking (l1 ++ l2) st
    = match replaceHtml_files write ch cfg depth pathBuild pathWorking l1 st
      with
      | None => None
      | Some (st', Some error) => Some (st', Some error)
      | Some (st', None) =>
          replaceHtml_files write ch cfg depth pathBuild pathWorking l2 st'
      end.
Proof.
  induction l1 as [|f l1 IH]; intros l2 st; simpl; auto.
  destruct (replaceHtml_file _ _ _ _ _ _ f st) as [[st' [e|]]|]; auto.
Qed.

Lemma replaceHtml_files_filter write ch cfg depth pathBuild pathWorking :
  forall listing st,
    replaceHtml_files write ch cfg depth pathBuild pathWorking listing st
    = replaceHtml_files write ch cfg depth pathBuild pathWorking
        (filter (search_at_end (str ".html")) listing) st.
Proof.
  induction listing as [|f l IH]; intros st; [reflexivity|].
  cbn [filter replaceHtml_files].
  destruct (search_at_end (str ".html") f) eqn:E.
  - cbn [replaceHtml_files].
    destruct (replaceHtml_file _ _ _ _ _ _ f st) as [[st' [e|]]|]; auto.
  - unfold replaceHtml_file. rewrite E. apply IH.
Qed.

(** X12: [replaceHtml] only works on the entries whose name ends in
    ".html": the other entries of the working directory make no
    difference to the files, the log or the way the promise settles. *)
Theorem replaceHtml_only_html write ch cfg depth pathBuild pathWorking
    listing fs :
  replaceHtml write ch cfg depth pathBuild pathWorking (Val listing) fs
  = replaceHtml write ch cfg depth pathBuild pathWorking
      (Val (filter (search_at_end (str ".html")) listing)) fs
  /\ forall file, In file (filter (search_at_end (str ".html")) listing) <->
                  In file listing /\ exists base, file = base ++ str ".html".
Proof.
  split.
  - unfold replaceHtml. now rewrite replaceHtml_files_filter.
  - intros file. rewrite filter_In, search_at_end_iff. reflexivity.
Qed.

(** X13: when reading an html entry fails, the promise is rejected with
    that error; what the entries before it wrote and reported stays, and
    the entries after it are not looked at. *)
Theorem replaceHtml_read_failure write ch cfg depth pathBuild pathWorking
    before file after fs st fileSource error :
  replaceHtml_files write ch cfg depth pathBuild pathWorking before
    {| files := fs; reported := []; printed := [] |} = Some (st, None) ->
  search_at_end (str ".html") file = true ->
  path_join [Some pathWorking; Some file] = Val fileSource ->
  readFileSync (files st) fileSource = Exn error ->
  replaceHtml write ch cfg depth pathBuild pathWorking
    (Val (before ++ file :: after)) fs
  = Some (st, Rejected error).
Proof.
  intros Hbefore Hhtml Hsrc Hread. unfold replaceHtml.
  rewrite replaceHtml_files_app, Hbefore. cbn [replaceHtml_files].
  unfold replaceHtml_file. rewrite Hhtml, Hsrc.
  unfold path_join at 1. simpl validate_strings. cbv beta iota.
  match goal with
  | |- context [filter nonempty ?l] => destruct (filter nonempty l)
  end; now rewrite Hread.
Qed.

Lemma replaceHtml_read_failure_witness :
  replaceHtml write_table plain_chalk configConsole_dev 2
    (str "build") (str "./")
    (Val [str "a.html"; str "gone.html"; str "b.html"])
    [(str "a.html", File (str "<p>{app:{b}}</p>"));
     (str "b.html", File (str "B"));
     (str "components/app/b/b.html", File (str "Z"))]
  = Some ({| files :=
               [(str "build/a.html", File (str "<p>Z</p>"));
                (str "a.html", File (str "<p>{app:{b}}</p>"));
                (str "b.html", File (str "B"));
                (str "components/app/b/b.html", File (str "Z"))];
             reported := [];
             printed := [tab :: str "Write a.html" ++ [8594%N]
                         ++ str "build/a.html"] |},
          Rejected (FsError (str "ENOENT"))).
Proof.
  apply (replaceHtml_read_failure write_table plain_chalk configConsole_dev 2
           (str "build") (str "./") [str "a.html"] (str "gone.html")
           [str "b.html"]) with (fileSource := str "gone.html");
    reflexivity.
Defined.

Lemma replaceHtml_file_frame (write : writer) ch cfg depth pathBuild
    pathWorking file st st' thrown q :
  (forall fs p c fs' thrown, write fs p c = (fs', thrown) ->
     forall q, q <> p -> lookup fs' q = lookup fs q) ->
  replaceHtml_file write ch cfg depth pathBuild pathWorking file st
  = Some (st', thrown) ->
  (search_at_end (str ".html") file = true ->
   path_join [Some pathBuild; Some file] <> Val q) ->
  lookup (files st') q = lookup (files st) q.
Proof.
  intros Hw H Hq. unfold replaceHtml_file in H.
  destruct (search_at_end (str ".html") file); [|now injection H as <- <-].
  specialize (Hq eq_refl).
  destruct (path_join [Some pathWorking; Some file]) as [src|e];
    [|destruct (path_join [Some pathBuild; Some file]);
      now injection H as <- <-].
  destruct (path_join [Some pathBuild; Some file]) as [dst|e];
    [|now injection H as <- <-].
  destruct (readFileSync (files st) src) as [code|e];
    [|now injection H as <- <-].
  destruct (replacePlaceholder depth (files st) code) as [[code' errs]|];
    [|now injection H as <- <-].
  destruct (write (files st) dst code') as [fs' e] eqn:W.
  injection H as <- <-. simpl. apply (Hw _ _ _ _ _ W). congruence.
Qed.

(** X14: a run changes no path but the destinations [path.join(pathBuild,
    file)] of the html entries, provided a write, failed or not, changes no
    other path than the one written. *)
Theorem replaceHtml_frame (write : writer) ch cfg depth pathBuild
    pathWorking listing fs st outcome q :
  (forall fs p c fs' thrown, write fs p c = (fs', thrown) ->
     forall q, q <> p -> lookup fs' q = lookup fs q) ->
  replaceHtml write ch cfg depth pathBuild pathWorking (Val listing) fs
  = Some (st, outcome) ->
  (forall file, In file listing -> search_at_end (str ".html") file = true ->
     path_join [Some pathBuild; Some file] <> Val q) ->
  lookup (files st) q = lookup fs q.
Proof.
  intros Hw H Hq. unfold replaceHtml in H.
  assert (Hfiles : forall l st0 st1 thrown,
            replaceHtml_files write ch cfg depth pathBuild pathWorking l st0
            = Some (st1, thrown) ->
            (forall file, In file l ->
               search_at_end (str ".html") file = true ->
               path_join [Some pathBuild; Some file] <> Val q) ->
            lookup (files st1) q = lookup (files st0) q).
  { induction l as [|f l IH]; intros st0 st1 thrown Hl Hin; simpl in Hl.
    - now injection Hl as <- <-.
    - destruct (replaceHtml_file write ch cfg depth pathBuild pathWorking
                  f st0) as [[st' [e|]]|] eqn:E; [| |discriminate].
      + injection Hl as <- <-.
        eapply replaceHtml_file_frame; eauto. apply Hin. now left.
      + rewrite (IH _ _ _ Hl) by (intros; apply Hin; auto; now right).
        eapply replaceHtml_file_frame; eauto. apply Hin. now left. }
  destruct (replaceHtml_files write ch cfg depth pathBuild pathWorking
              listing {| files := fs; reported := []; printed := [] |})
    as [[st1 [e|]]|] eqn:E; [| |discriminate];
    injection H as <- <-; apply (Hfiles _ _ _ _ E Hq).
Qed.

Lemma replaceHtml_frame_witness :
  lookup
    [(str "build/a.html", File (str "<p>Z</p>"));
     (str "a.html", File (str "<p>{app:{b}}</p>"));
     (str "components/app/b/b.html", File (str "Z"))]
    (str "a.html")
  = lookup
      [(str "a.html", File (str "<p>{app:{b}}</p>"));
       (str "components/app/b/b.html", File (str "Z"))]
      (str "a.html").
Proof.
  apply (replaceHtml_frame write_table plain_chalk configConsole_prod 2
           (str "build") (str "./") [str "a.html"; str "notes.txt"]
           [(str "a.html", File (str "<p>{app:{b}}</p>"));
            (str "components/app/b/b.html", File (str "Z"))]
           {| files :=
                [(str "build/a.html", File (str "<p>Z</p>"));
                 (str "a.html", File (str "<p>{app:{b}}</p>"));
                 (str "components/app/b/b.html", File (str "Z"))];
              reported := []; printed := [] |}
           Resolved).
  - intros fs p c fs' thrown [= <- _] q Hq. simpl.
    now rewrite (text_eqb_neq p q) by congruence.
  - reflexivity.
  - intros file [<-|[<-|[]]] _; vm_compute; discriminate.
Defined.

(** X15: an html entry without placeholders is written to the build
    directory with the content it has, and nothing is reported for it. *)
Theorem replaceHtml_copies_plain_file (write : writer) ch cfg d pathBuild
    pathWorking before file fs st fileSource fileDestination content :
  replaceHtml_files write ch cfg (S d) pathBuild pathWorking before
    {| files := fs; reported := []; printed := [] |} = Some (st, None) ->
  search_at_end (str ".html") file = true ->
  path_join [Some pathWorking; Some file] = Val fileSource ->
  path_join [Some pathBuild; Some file] = Val fileDestination ->
  readFileSync (files st) fileSource = Val content ->
  (forall pre m post, content = pre ++ m ++ post -> ~ matches placeholder m) ->
  replaceHtml write ch cfg (S d) pathBuild pathWorking
    (Val (before ++ [file])) fs
  = Some ({| files := fst (write (files st) fileDestination content);
             reported := reported st;
             printed := printed st ++
               match showFileInfo ch cfg fileSource (str "writeto")
                       fileDestination with
               | Some l => [l]
               | None => []
               end |},
          match snd (write (files st) fileDestination content) with
          | None => Resolved
          | Some error => Rejected error
          end).
Proof.
  intros Hbefore Hhtml Hsrc Hdst Hread Hplain. unfold replaceHtml.
  rewrite replaceHtml_files_app, Hbefore. cbn [replaceHtml_files].
  unfold replaceHtml_file. rewrite Hhtml, Hsrc, Hdst, Hread.
  rewrite no_token_identity.
  - destruct (write (files st) fileDestination content) as [fs' [e|]];
      simpl; now rewrite app_nil_r.
  - intros m Hm. apply scan_token in Hm as (Hm & pre & post & ->).
    exact (Hplain _ _ _ eq_refl Hm).
Qed.

Lemma replaceHtml_copies_plain_file_witness :
  replaceHtml write_table plain_chalk configConsole_prod 1
    (str "build") (str "./") (Val [str "LICENSE"; str "index.html"])
    [(str "index.html", File (str "<h1>Hello</h1>"))]
  = Some ({| files :=
               [(str "build/index.html", File (str "<h1>Hello</h1>"));
                (str "index.html", File (str "<h1>Hello</h1>"))];
             reported := []; printed := [] |}, Resolved).
Proof.
  apply (replaceHtml_copies_plain_file write_table plain_chalk
           configConsole_prod 0 (str "build") (str "./") [str "LICENSE"]
           (str "index.html")
           [(str "index.html", File (str "<h1>Hello</h1>"))]
           {| files := [(str "index.html", File (str "<h1>Hello</h1>"))];
              reported := []; printed := [] |}
           (str "index.html") (str "build/index.html")
           (str "<h1>Hello</h1>")); try reflexivity.
  apply brace_free_no_match. reflexivity.
Defined.

(** ** [getDirectories] and [getDirectoriesRecursive] *)

Lemma map_res_Val A B (f : A -> res B) : forall l ys,
  map_res f l = Val ys -> Forall2 (fun x y => f x = Val y) l ys.
Proof.
  induction l as [|x l IH]; simpl; intros ys H.
  - injection H as <-. constructor.
  - destruct (f x) as [y|e] eqn:E; [|discriminate].
    destruct (map_res f l) as [ys'|e]; [|discriminate].
    injection H as <-. constructor; auto.
Qed.

Lemma filter_res_Val A (f : A -> res bool) : forall l r,
  filter_res f l = Val r ->
  exists keep, Forall2 (fun x b => f x = Val b) l keep
               /\ r = map fst (filter snd (combine l keep)).
Proof.
  induction l as [|x l IH]; simpl; intros r H.
  - injection H as <-. exists []. split; [constructor|reflexivity].
  - destruct (f x) as [b|e] eqn:E; [|discriminate].
    destruct (filter_res f l) as [r'|e]; [|discriminate].
    injection H as <-. destruct (IH _ eq_refl) as (keep & Hk & ->).
    exists (b :: keep). split; [now constructor|]. simpl. now destruct b.
Qed.

Lemma filter_res_In A (f : A -> res bool) : forall l r,
  filter_res f l = Val r ->
  (forall x, In x l -> exists b, f x = Val b) /\
  (forall x, In x r <-> In x l /\ f x = Val true).
Proof.
  induction l as [|x l IH]; simpl; intros r H.
  - injection H as <-. split; [contradiction|]. simpl. tauto.
  - destruct (f x) as [b|e] eqn:E; [|discriminate].
    destruct (filter_res f l) as [r'|e]; [|discriminate].
    injection H as <-. destruct (IH _ eq_refl) as (Hall & Hin). split.
    + intros y [<-|Hy]; eauto.
    + intros y. destruct b; simpl; rewrite ?Hin.
      * split; [intros [<-|[Hy Hf]]; auto|intros [[<-|Hy] Hf]; auto].
      * split; [intros [Hy Hf]; auto|].
        intros [[<-|Hy] Hf]; [congruence|auto].
Qed.

Lemma Forall2_In_l A B (R : A -> B -> Prop) l1 l2 x :
  Forall2 R l1 l2 -> In x l1 -> exists y, In y l2 /\ R x y.
Proof.
  induction 1 as [|a b l1 l2 Hab _ IH]; simpl; [contradiction|].
  intros [<-|Hx]; [eauto|]. destruct (IH Hx) as (y & Hy & Hr). eauto.
Qed.

Lemma Forall2_In_r A B (R : A -> B -> Prop) l1 l2 y :
  Forall2 R l1 l2 -> In y l2 -> exists x, In x l1 /\ R x y.
Proof.
  induction 1 as [|a b l1 l2 Hab _ IH]; simpl; [contradiction|].
  intros [<-|Hy]; [eauto|]. destruct (IH Hy) as (x & Hx & Hr). eauto.
Qed.

Lemma map_res_In A B (f : A -> res B) : forall l ys,
  map_res f l = Val ys ->
  forall y, In y ys <-> exists x, In x l /\ f x = Val y.
Proof.
  induction l as [|x l IH]; simpl; intros ys H y.
  - injection H as <-. simpl. split; [contradiction|now intros (? & [] & _)].
  - destruct (f x) as [y0|e] eqn:E; [|discriminate].
    destruct (map_res f l) as [ys'|e]; [|discriminate].
    injection H as <-. simpl. rewrite (IH _ eq_refl). split.
    + intros [<-|(x' & Hx & Hf)]; eauto.
    + intros (x' & [<-|Hx] & Hf); [left; congruence|right; eauto].
Qed.

(** X16: when [getDirectories] returns, every entry of the directory could
    be examined, and the result holds exactly the joined paths of the
    entries that [lstat] reports as directories; when reading the
    directory fails, the call throws that error. *)
Theorem getDirectories_exact api source :
  (forall dirs, getDirectories api source = Val dirs ->
     exists names,
       readdirSync api source = Val names /\
       (forall name, In name names ->
          exists p b, path_join [Some source; Some name] = Val p
                      /\ lstat_isDirectory api p = Val b) /\
       (forall p, In p dirs <->
          exists name, In name names
                       /\ path_join [Some source; Some name] = Val p
                       /\ lstat_isDirectory api p = Val true)) /\
  (forall e, readdirSync api source = Exn e ->
     getDirectories api source = Exn e).
Proof.
  unfold getDirectories. split.
  - intros dirs H. destruct (readdirSync api source) as [names|e];
      [|discriminate].
    exists names. split; [reflexivity|].
    destruct (map_res _ names) as [paths|e] eqn:Hmap; [|discriminate].
    destruct (filter_res_In _ _ _ _ H) as (Hall & Hin).
    pose proof (map_res_In _ _ _ _ _ Hmap) as Hpaths. split.
    + intros name Hname.
      assert (Hp : exists p, path_join [Some source; Some name] = Val p).
      { unfold path_join. simpl validate_strings. cbv beta iota.
        match goal with
        | |- context [filter nonempty ?l] => destruct (filter nonempty l)
        end; eauto. }
      destruct Hp as (p & Hp). exists p.
      destruct (Hall p) as (b & Hb); [apply Hpaths; eauto|]. eauto.
    + intros p. rewrite Hin, Hpaths. unfold isDirectory. split.
      * intros ((name & Hname & Hp) & Hd). eauto.
      * intros (name & Hname & Hp & Hd). eauto.
  - intros e ->. reflexivity.
Qed.

Lemma map_calls_Val f : forall l rs,
  map_calls f l = Some (Val rs) ->
  Forall2 (fun x r => f x = Some (Val r)) l rs.
Proof.
  induction l as [|x l IH]; simpl; intros rs H.
  - injection H as <-. constructor.
  - destruct (f x) as [[r|e]|] eqn:E; try discriminate.
    destruct (map_calls f l) as [[rs'|e]|]; try discriminate.
    injection H as <-. constructor; auto.
Qed.

Lemma fold_left_app_concat (lists : list (list text)) : forall acc,
  fold_left (fun accumulator current_Value => accumulator ++ current_Value)
    lists acc = acc ++ concat lists.
Proof.
  induction lists as [|l lists IH]; intros acc; simpl.
  - now rewrite app_nil_r.
  - now rewrite IH, app_assoc.
Qed.

Lemma getDirectoriesRecursive_unfold api d source l :
  getDirectoriesRecursive api (S d) source = Some (Val l) ->
  exists dirs lists,
    getDirectories api source = Val dirs /\
    Forall2 (fun x r => getDirectoriesRecursive api d x = Some (Val r))
      dirs lists /\
    l = source :: concat lists.
Proof.
  simpl. destruct (getDirectories api source) as [dirs|e]; [|discriminate].
  destruct (map_calls _ dirs) as [[lists|e]|] eqn:E; try discriminate.
  intros [= <-]. exists dirs, lists. repeat split.
  - now apply map_calls_Val.
  - now rewrite fold_left_app_concat.
Qed.

(** X17: when [getDirectoriesRecursive] returns a list, it starts with
    [source] and holds exactly the directories that can be reached from
    [source] through the results of [getDirectories]; each of them could be
    read. *)
Theorem getDirectoriesRecursive_exact api : forall depth source l,
  getDirectoriesRecursive api depth source = Some (Val l) ->
  (exists rest, l = source :: rest) /\
  (forall p, In p l <-> clos_refl_trans text (subdirectory api) source p) /\
  (forall p, In p l -> exists dirs, getDirectories api p = Val dirs).
Proof.
  induction depth as [|d IH]; intros source l H; [discriminate|].
  destruct (getDirectoriesRecursive_unfold _ _ _ _ H)
    as (dirs & lists & Hdirs & Hrec & ->).
  split; [eauto|]. split.
  - intros p. split.
    + intros [<-|Hp]; [apply rt_refl|].
      apply in_concat in Hp as (r & Hr & Hp).
      destruct (Forall2_In_r _ _ _ _ _ _ Hrec Hr) as (child & Hchild & Hcall).
      destruct (IH _ _ Hcall) as (_ & Hreach & _).
      eapply rt_trans; [apply rt_step; exists dirs; eauto|].
      now apply Hreach.
    + intros Hp. apply clos_rt_rt1n in Hp.
      destruct Hp as [|child p (dirs' & Hdirs' & Hchild) Hp]; [now left|].
      right. rewrite Hdirs in Hdirs'. injection Hdirs' as <-.
      destruct (Forall2_In_l _ _ _ _ _ _ Hrec Hchild) as (r & Hr & Hcall).
      destruct (IH _ _ Hcall) as (_ & Hreach & _).
      apply in_concat. exists r. split; auto.
      apply Hreach. now apply clos_rt1n_rt.
  - intros p [<-|Hp]; [eauto|].
    apply in_concat in Hp as (r & Hr & Hp).
    destruct (Forall2_In_r _ _ _ _ _ _ Hrec Hr) as (child & Hchild & Hcall).
    destruct (IH _ _ Hcall) as (_ & _ & Hread). now apply Hread.
Qed.

Lemma getDirectories_exact_witness :
  exists names,
    readdirSync sample_tree (str "src") = Val names /\
    (forall name, In name names ->
       exists p b, path_join [Some (str "src"); Some name] = Val p
                   /\ lstat_isDirectory sample_tree p = Val b) /\
    (forall p, In p [str "src/a"; str "src/b"] <->
       exists name, In name names
                    /\ path_join [Some (str "src"); Some name] = Val p
                    /\ lstat_isDirectory sample_tree p = Val true).
Proof.
  apply (getDirectories_exact sample_tree (str "src")). reflexivity.
Defined.

Lemma getDirectoriesRecursive_exact_witness :
  getDirectoriesRecursive sample_tree 3 (str "src")
  = Some (Val [str "src"; str "src/a"; str "src/a/c"; str "src/b"])
  /\ clos_refl_trans text (subdirectory sample_tree) (str "src")
       (str "src/a/c").
Proof.
  split; [reflexivity|].
  apply (getDirectoriesRecursive_exact sample_tree 3 (str "src")
           [str "src"; str "src/a"; str "src/a/c"; str "src/b"] eq_refl).
  simpl. auto.
Defined.

Lemma map_calls_Some f : forall l,
  (forall x, In x l -> exists r, f x = Some r) ->
  exists rs, map_calls f l = Some rs.
Proof.
  induction l as [|x l IH]; intros H; simpl; [eauto|].
  destruct (H x (or_introl eq_refl)) as ([r|e] & ->); [|eauto].
  destruct IH as ([rs|e] & ->); eauto. intros y Hy. apply H. now right.
Qed.

(** X18: [getDirectoriesRecursive] comes to an end, with a list or with an
    error, on every tree of directories of finite height: when a rank
    decreases from each directory to the directories found in it, a depth
    of one more than the rank of [source] is enough. *)
Theorem getDirectoriesRecursive_returns api (rank : text -> nat) :
  (forall parent child, subdirectory api parent child ->
     rank child < rank parent) ->
  forall source,
    exists r, getDirectoriesRecursive api (S (rank source)) source = Some r.
Proof.
  intros Hrank.
  assert (H : forall depth source, rank source < depth ->
            exists r, getDirectoriesRecursive api depth source = Some r).
  { induction depth as [|d IH]; intros source Hd; [lia|]. simpl.
    destruct (getDirectories api source) as [dirs|e] eqn:E; [|eauto].
    destruct (map_calls_Some (getDirectoriesRecursive api d) dirs)
      as ([lists|e] & ->); eauto.
    intros child Hchild. apply IH.
    assert (rank child < rank source) by (apply Hrank; exists dirs; auto).
    lia. }
  intros source. apply H. lia.
Qed.

Lemma text_eqb_true a b : text_eqb a b = true -> a = b.
Proof. unfold text_eqb. destruct (text_eq_dec a b); congruence. Qed.

Lemma getDirectoriesRecursive_returns_witness :
  exists r, getDirectoriesRecursive sample_tree 3 (str "src") = Some r.
Proof.
  apply (getDirectoriesRecursive_returns sample_tree
           (fun p => if text_eqb p (str "src") then 2
                     else if text_eqb p (str "src/a") then 1 else 0)
         : _ -> forall source, _).
  intros parent child (dirs & Hdirs & Hchild).
  unfold getDirectories in Hdirs. cbn [readdirSync sample_tree] in Hdirs.
  destruct (text_eqb parent (str "src")) eqn:E1.
  { apply text_eqb_true in E1 as ->. vm_compute in Hdirs.
    injection Hdirs as <-. destruct Hchild as [<-|[<-|[]]]; vm_compute; lia. }
  destruct (text_eqb parent (str "src/a")) eqn:E2.
  { apply text_eqb_true in E2 as ->. vm_compute in Hdirs.
    injection Hdirs as <-. destruct Hchild as [<-|[]]; vm_compute; lia. }
  destruct (text_eqb parent (str "src/b")) eqn:E3.
  { simpl in Hdirs. injection Hdirs as <-. destruct Hchild. }
  destruct (text_eqb parent (str "src/a/c")) eqn:E4.
  { simpl in Hdirs. injection Hdirs as <-. destruct Hchild. }
  discriminate.
Defined.

(** ** The change handler *)

Lemma text_includes_iff s pattern :
  text_includes s pattern = true <-> exists pre post, s = pre ++ pattern ++ post.
Proof.
  split.
  - induction s as [|c s IH]; cbn [text_includes].
    + destruct (drop_prefix pattern []) as [r|] eqn:E; [|discriminate].
      intros _. exists [], r. apply drop_prefix_Some in E. exact E.
    + destruct (drop_prefix pattern (c :: s)) as [r|] eqn:E.
      * intros _. exists [], r. apply drop_prefix_Some in E. exact E.
      * intros H. destruct (IH H) as (pre & post & ->).
        now exists (c :: pre), post.
  - intros (pre & post & ->). induction pre as [|c pre IH].
    + simpl app. destruct (pattern ++ post) as [|x y] eqn:E.
      * apply app_eq_nil in E as [-> ->]. reflexivity.
      * rewrite <- E. destruct (pattern ++ post) eqn:E2; [discriminate|].
        cbn [text_includes]. rewrite <- E2. now rewrite drop_prefix_app.
    + cbn [app text_includes]. rewrite IH.
      now destruct (drop_prefix pattern _).
Qed.

Lemma lastIndexOf_app c ext : forall base,
  free_of c ext ->
  lastIndexOf c (base ++ c :: ext) = Some (length base).
Proof.
  intros base Hext.
  assert (H0 : lastIndexOf c ext = None).
  { unfold free_of in Hext. induction ext as [|x ext IH]; [reflexivity|].
    simpl in *. apply andb_prop in Hext as [Hx Hext].
    apply negb_true_iff in Hx. now rewrite IH, Hx. }
  induction base as [|x base IH]; simpl.
  - now rewrite H0, N.eqb_refl.
  - now rewrite IH.
Qed.

Lemma lastIndexOf_none c s : free_of c s -> lastIndexOf c s = None.
Proof.
  unfold free_of. induction s as [|x s IH]; [reflexivity|].
  simpl. intros H. apply andb_prop in H as [Hx Hs].
  apply negb_true_iff in Hx. now rewrite IH, Hx.
Qed.

(** X19: a change of a file whose path contains "deferred" starts the
    statics build and nothing else, whatever its extension; and no change
    ever starts more than one build. *)
Theorem triggerNodeScript_deferred toLowerCase ch filepath :
  (text_includes filepath (str "deferred") = true ->
   fst (triggerNodeScript toLowerCase ch filepath)
   = [str "npm run build:statics"]) /\
  length (fst (triggerNodeScript toLowerCase ch filepath)) <= 1.
Proof.
  unfold triggerNodeScript. simpl fst.
  destruct (text_includes filepath (str "deferred")).
  - split; [reflexivity|simpl; lia].
  - split; [discriminate|]. cbn [flat_map configWatch fst snd existsb].
    generalize (changed_extension toLowerCase filepath). intros e.
    rewrite !orb_false_r.
    destruct (text_eqb e (str "scss")) eqn:E1,
             (text_eqb e (str "html")) eqn:E2,
             (text_eqb e (str "js")) eqn:E3;
      cbn [app length]; try lia; exfalso;
      repeat match goal with
             | H : text_eqb _ _ = true |- _ => apply text_eqb_true in H
             end;
      match goal with
      | H : ?x = str _, H' : ?x = str _ |- _ => rewrite H in H'; discriminate H'
      end.
Qed.

Lemma triggerNodeScript_deferred_witness :
  fst (triggerNodeScript ascii_lower plain_chalk
         (str "components/app/_deferred/teaser/teaser.js"))
  = [str "npm run build:statics"].
Proof.
  apply (triggerNodeScript_deferred ascii_lower plain_chalk
           (str "components/app/_deferred/teaser/teaser.js")).
  reflexivity.
Defined.

(** X20: for a path without "deferred" the build is chosen by what follows
    the last dot, lower-cased: "scss" starts the css build, "html" the html
    build, "js" the js:watch build and anything else none; a path
    without a dot counts as its own extension. *)
Theorem triggerNodeScript_by_extension toLowerCase ch base ext :
  free_of dot ext ->
  text_includes (base ++ dot :: ext) (str "deferred") = false ->
  let commands := fst (triggerNodeScript toLowerCase ch (base ++ dot :: ext)) in
  (toLowerCase ext = str "scss" -> commands = [str "npm run build:css"]) /\
  (toLowerCase ext = str "html" -> commands = [str "npm run build:html"]) /\
  (toLowerCase ext = str "js" -> commands = [str "npm run build:js:watch"]) /\
  (toLowerCase ext <> str "scss" -> toLowerCase ext <> str "html" ->
   toLowerCase ext <> str "js" -> commands = []) /\
  changed_extension toLowerCase ext = toLowerCase ext.
Proof.
  intros Hext Hdef. unfold triggerNodeScript. rewrite Hdef. simpl fst.
  assert (He : changed_extension toLowerCase (base ++ dot :: ext)
               = toLowerCase ext).
  { unfold changed_extension. rewrite lastIndexOf_app by assumption.
    f_equal. change (S (length base)) with (1 + length base).
    rewrite <- skipn_skipn, skipn_app, Nat.sub_diag, skipn_all.
    reflexivity. }
  cbv zeta. rewrite He. cbn [flat_map configWatch fst snd existsb].
  repeat split.
  - intros ->. reflexivity.
  - intros ->. reflexivity.
  - intros ->. reflexivity.
  - intros H1 H2 H3. now rewrite !text_eqb_neq by assumption.
  - unfold changed_extension. now rewrite lastIndexOf_none.
Qed.

Lemma triggerNodeScript_by_extension_witness :
  fst (triggerNodeScript ascii_lower plain_chalk (str "components/app/a/a.SCSS"))
  = [str "npm run build:css"].
Proof.
  apply (triggerNodeScript_by_extension ascii_lower plain_chalk
           (str "components/app/a/a") (str "SCSS")); reflexivity.
Defined.

(** ** Copy destinations *)

(** X21: with the flatten option the destination of a copied file depends
    only on what follows the last slash of the entry: entries of the same
    name in different directories are copied to the same path. *)
Theorem flatten_destination_by_name destinationDir dir name :
  free_of slash name ->
  destinationFilePath true destinationDir (dir ++ slash :: name)
  = path_join [Some destinationDir; Some name]
  /\ destinationFilePath true destinationDir name
     = path_join [Some destinationDir; Some name]
  /\ destinationDirPath true destinationDir (dir ++ slash :: name)
     = Val destinationDir.
Proof.
  intros Hname. unfold destinationFilePath, destinationDirPath.
  rewrite split_app_sep, !(split_single _ _ Hname).
  destruct (split_cons slash dir) as (h & t & ->).
  change ((h :: t) ++ [name]) with (h :: (t ++ [name])).
  rewrite last_last || (cbn [last]; destruct (t ++ [name]) eqn:E;
    [destruct t; discriminate|rewrite <- E, last_last]).
  simpl. auto.
Qed.

Lemma flatten_destination_by_name_witness :
  destinationFilePath true (str "./build/assets/img/") (str "hero/logo.png")
  = Val (str "build/assets/img/logo.png")
  /\ destinationFilePath true (str "./build/assets/img/") (str "footer/logo.png")
     = Val (str "build/assets/img/logo.png").
Proof.
  split.
  - apply (flatten_destination_by_name (str "./build/assets/img/")
             (str "hero") (str "logo.png")). reflexivity.
  - apply (flatten_destination_by_name (str "./build/assets/img/")
             (str "footer") (str "logo.png")). reflexivity.
Defined.

(** ** Docker and WSL *)

(** X22: [isWsl] answers true exactly on a linux platform, outside Docker,
    when the release or the readable /proc/version holds "microsoft" in
    any case; in particular never inside Docker. *)
Theorem isWsl_exact toLowerCase h :
  isWsl toLowerCase h = true <->
  platform h = str "linux" /\ isDocker h = false /\
  (text_includes (toLowerCase (os_release h)) (str "microsoft") = true \/
   exists version,
     read_file h (str "/proc/version") = Val version /\
     text_includes (toLowerCase version) (str "microsoft") = true).
Proof.
  unfold isWsl, text_eqb.
  destruct (text_eq_dec (platform h) (str "linux")) as [Hp|Hp]; simpl.
  2: { split; [discriminate|]. intros (H & _). contradiction. }
  destruct (text_includes (toLowerCase (os_release h)) (str "microsoft")).
  { destruct (isDocker h); split; try discriminate; auto.
    intros (_ & H & _). discriminate. }
  destruct (read_file h (str "/proc/version")) as [version|e].
  - destruct (text_includes (toLowerCase version) (str "microsoft")) eqn:E.
    + destruct (isDocker h); simpl; split; try discriminate.
      * intros (_ & H & _). discriminate H.
      * intros _. split; [assumption|]. split; [reflexivity|].
        right. exists version. split; [reflexivity|assumption].
      * intros _. reflexivity.
    + split; [discriminate|].
      intros (_ & _ & [H|(v & Hv & H)]); [discriminate H|].
      injection Hv as <-. rewrite H in E. discriminate E.
  - split; [discriminate|].
    intros (_ & _ & [H|(v & H & _)]); discriminate H.
Qed.

(** ** Debounce and throttle *)

Lemma debounce_run_snoc (A : Type) delay (events : list (event A)) ev :
  debounce_run delay (events ++ [ev])
  = debounce_step delay (debounce_run delay events) ev.
Proof. unfold debounce_run. now rewrite fold_left_app. Qed.

Lemma throttle_run_snoc (A : Type) threshold (events : list (event A)) ev :
  throttle_run threshold (events ++ [ev])
  = throttle_step threshold (throttle_run threshold events) ev.
Proof. unfold throttle_run. now rewrite fold_left_app. Qed.

Lemma clearTimeout_single (A : Type) (ts : timers A) h entry :
  waiting ts = [(h, entry)] -> waiting (clearTimeout ts (Some h)) = [].
Proof. intros H. simpl. rewrite H. simpl. now rewrite Nat.eqb_refl. Qed.

Lemma clearTimeout_empty (A : Type) (ts : timers A) handle :
  waiting ts = [] -> waiting (clearTimeout ts handle) = [].
Proof. intros H. destruct handle; simpl; now rewrite ?H. Qed.

Lemma expired_empty (A : Type) (ts : timers A) now h :
  waiting ts = [] -> expired ts now h = None.
Proof. intros H. unfold expired. now rewrite H. Qed.

Lemma expired_single (A : Type) (ts : timers A) now h h' due (callback : A) :
  waiting ts = [(h, (due, callback))] ->
  expired ts now h'
  = if (Nat.eqb h h' && (due <=? now)%N)%bool then Some callback else None.
Proof.
  intros H. unfold expired. rewrite H. simpl.
  destruct (Nat.eqb h h'); [|reflexivity]. simpl.
  now destruct (due <=? now)%N.
Qed.

(** What holds of a debounced function after any events: at most the
    timer of the last invocation waits, every call of [func] is the run
    of the timer of the invocation before it, and calls and waiting timer
    together are no more than the invocations. *)
Lemma debounce_invariant (A : Type) (delay : N) (events : list (event A)) :
  (waiting (debounce_timers (debounce_run delay events)) = [] \/
   exists h t0 args pre mid,
     timer (debounce_run delay events) = Some h /\
     waiting (debounce_timers (debounce_run delay events))
     = [(h, ((t0 + delay)%N, args))] /\
     events = pre ++ Invoke t0 args :: mid /\
     existsb is_invoke mid = false) /\
  (forall t args,
     In (t, args) (debounce_calls (debounce_run delay events)) ->
     exists pre t0 mid h post,
       events = pre ++ Invoke t0 args :: mid ++ Fire t h :: post /\
       existsb is_invoke mid = false /\ (t0 + delay <= t)%N) /\
  length (debounce_calls (debounce_run delay events))
  + length (waiting (debounce_timers (debounce_run delay events)))
  <= length (filter is_invoke events).
Proof.
  induction events as [|ev l IH] using rev_ind.
  - split; [left; reflexivity|]. split; [intros ? ? []|simpl; lia].
  - rewrite debounce_run_snoc. destruct IH as (Ha & Hc & Hn).
    assert (Hc' : forall t args,
      In (t, args) (debounce_calls (debounce_run delay l)) ->
      exists pre t0 mid h post,
        l ++ [ev] = pre ++ Invoke t0 args :: mid ++ Fire t h :: post /\
        existsb is_invoke mid = false /\ (t0 + delay <= t)%N).
    { intros t args H.
      destruct (Hc _ _ H) as (pre & t0 & mid & h & post & -> & Hm & Ht).
      exists pre, t0, mid, h, (post ++ [ev]). split; [|auto].
      repeat (rewrite <- app_assoc; simpl). reflexivity. }
    rewrite filter_app, length_app.
    assert (Hclear : waiting (clearTimeout (debounce_timers (debounce_run delay l))
                               (timer (debounce_run delay l))) = []).
    { destruct Ha as [Ha|(h & t0 & args & pre & mid & Ht & Hw & _)].
      - now apply clearTimeout_empty.
      - rewrite Ht. eapply clearTimeout_single; eassumption. }
    destruct ev as [now ARGS|now h'].
    + cbn [debounce_step setTimeout]. cbn [timer debounce_timers debounce_calls waiting].
      rewrite Hclear. cbn [app filter is_invoke length].
      split; [|split].
      * right. exists (next_handle (clearTimeout (debounce_timers (debounce_run delay l))
                                     (timer (debounce_run delay l)))), now, ARGS, l, [].
        repeat split; reflexivity.
      * exact Hc'.
      * destruct Ha as [Ha|(h & t0 & args & pre & mid & Ht & Hw & _)];
          rewrite ?Ha, ?Hw in Hn; simpl in Hn; lia.
    + cbn [filter is_invoke length]. rewrite Nat.add_0_r.
      destruct Ha as [Ha|(h & t0 & args & pre & mid & Ht & Hw & -> & Hm)].
      * cbn [debounce_step]. rewrite (expired_empty _ _ _ _ Ha).
        split; [now left|]. split; [exact Hc'|exact Hn].
      * cbn [debounce_step]. rewrite (expired_single _ _ now h h' _ _ Hw).
        destruct (Nat.eqb h h' && (t0 + delay <=? now)%N)%bool eqn:E.
        -- apply andb_prop in E as [Eh Ed].
           apply Nat.eqb_eq in Eh. subst h'. apply N.leb_le in Ed.
           cbn [timer debounce_timers debounce_calls].
           rewrite (clearTimeout_single _ _ _ _ Hw).
           split; [now left|]. split.
           ++ intros t a Hin. apply in_app_or in Hin as [Hin|[Hin|[]]].
              ** now apply Hc'.
              ** injection Hin as <- <-.
                 exists pre, t0, mid, h, []. split; [|auto].
                 repeat (rewrite <- app_assoc; simpl). reflexivity.
           ++ rewrite length_app. rewrite Hw in Hn. simpl in *. lia.
        -- split; [|split; [exact Hc'|exact Hn]].
           right. exists h, t0, args, pre, (mid ++ [Fire now h']).
           repeat split; try assumption.
           ++ repeat (rewrite <- app_assoc; simpl). reflexivity.
           ++ rewrite existsb_app, Hm. reflexivity.
Qed.

(** The same for a throttled function: at most the timer of the last
    deferred invocation waits, and every call of [func] has the arguments
    of an earlier invocation and runs with it or a threshold later. *)
Lemma throttle_invariant (A : Type) (threshold : N) (events : list (event A)) :
  (waiting (throttle_timers (throttle_run threshold events)) = [] \/
   exists h t0 args pre post,
     defer_timer (throttle_run threshold events) = Some h /\
     waiting (throttle_timers (throttle_run threshold events))
     = [(h, ((t0 + threshold)%N, (t0, args)))] /\
     events = pre ++ Invoke t0 args :: post) /\
  (forall t args,
     In (t, args) (throttle_calls (throttle_run threshold events)) ->
     exists pre t0 post,
       events = pre ++ Invoke t0 args :: post /\
       (t = t0 \/ (t0 + threshold <= t)%N)) /\
  length (throttle_calls (throttle_run threshold events))
  + length (waiting (throttle_timers (throttle_run threshold events)))
  <= length (filter is_invoke events).
Proof.
  induction events as [|ev l IH] using rev_ind.
  - split; [left; reflexivity|]. split; [intros ? ? []|simpl; lia].
  - rewrite throttle_run_snoc. destruct IH as (Ha & Hc & Hn).
    assert (Hc' : forall t args,
      In (t, args) (throttle_calls (throttle_run threshold l)) ->
      exists pre t0 post,
        l ++ [ev] = pre ++ Invoke t0 args :: post /\
        (t = t0 \/ (t0 + threshold <= t)%N)).
    { intros t args H.
      destruct (Hc _ _ H) as (pre & t0 & post & -> & Ht).
      exists pre, t0, (post ++ [ev]). split; [|auto].
      repeat (rewrite <- app_assoc; simpl). reflexivity. }
    assert (Ha' : waiting (throttle_timers (throttle_run threshold l)) = [] \/
      exists h t0 args pre post,
        defer_timer (throttle_run threshold l) = Some h /\
        waiting (throttle_timers (throttle_run threshold l))
        = [(h, ((t0 + threshold)%N, (t0, args)))] /\
        l ++ [ev] = pre ++ Invoke t0 args :: post).
    { destruct Ha as [Ha|(h & t0 & args & pre & post & Ht & Hw & ->)];
        [now left|right].
      exists h, t0, args, pre, (post ++ [ev]). repeat split; try assumption.
      repeat (rewrite <- app_assoc; simpl). reflexivity. }
    rewrite filter_app, length_app.
    assert (Hclear : waiting (clearTimeout (throttle_timers (throttle_run threshold l))
                               (defer_timer (throttle_run threshold l))) = []).
    { destruct Ha as [Ha|(h & t0 & args & pre & mid & Ht & Hw & _)].
      - now apply clearTimeout_empty.
      - rewrite Ht. eapply clearTimeout_single; eassumption. }
    assert (Hw1 : length (waiting (throttle_timers (throttle_run threshold l))) <= 1).
    { destruct Ha as [Ha|(h & t0 & args & pre & mid & Ht & Hw & _)];
        rewrite ?Ha, ?Hw; simpl; lia. }
    destruct ev as [now ARGS|now h'].
    + cbn [throttle_step filter is_invoke length].
      destruct (within_threshold _ now threshold).
      * cbn [setTimeout last_time defer_timer throttle_timers throttle_calls waiting].
        rewrite Hclear. cbn [app length].
        split; [|split].
        -- right. eexists _, now, ARGS, l, []. repeat split; reflexivity.
        -- exact Hc'.
        -- lia.
      * cbn [last_time defer_timer throttle_timers throttle_calls].
        split; [exact Ha'|]. split.
        -- intros t a Hin. apply in_app_or in Hin as [Hin|[Hin|[]]].
           ++ now apply Hc'.
           ++ injection Hin as <- <-. exists l, now, []. auto.
        -- rewrite length_app. simpl. lia.
    + cbn [filter is_invoke length]. rewrite Nat.add_0_r.
      destruct Ha as [Ha|(h & t0 & args & pre & post & Ht & Hw & ->)].
      * cbn [throttle_step]. rewrite (expired_empty _ _ _ _ Ha).
        split; [now left|]. split; [exact Hc'|exact Hn].
      * cbn [throttle_step]. rewrite (expired_single _ _ now h h' _ _ Hw).
        destruct (Nat.eqb h h' && (t0 + threshold <=? now)%N)%bool eqn:E.
        -- apply andb_prop in E as [Eh Ed].
           apply Nat.eqb_eq in Eh. subst h'. apply N.leb_le in Ed.
           cbn [last_time defer_timer throttle_timers throttle_calls].
           rewrite (clearTimeout_single _ _ _ _ Hw).
           split; [now left|]. split.
           ++ intros t a Hin. apply in_app_or in Hin as [Hin|[Hin|[]]].
              ** now apply Hc'.
              ** injection Hin as <- <-.
                 exists pre, t0, (post ++ [Fire now h]). split; [|auto].
                 repeat (rewrite <- app_assoc; simpl). reflexivity.
           ++ rewrite length_app. rewrite Hw in Hn. simpl in *. lia.
        -- split; [exact Ha'|split; [exact Hc'|exact Hn]].
Qed.

(** X23: every call that [debounce] makes to [func] is the run of the
    timer of the last invocation before it: it has that invocation's
    arguments and comes no earlier than [delay] after it, with no other
    invocation in between. *)
Theorem debounce_calls_last_invocation (A : Type) (delay : N)
    (events : list (event A)) t args :
  In (t, args) (debounce_calls (debounce_run delay events)) ->
  exists pre t0 mid h post,
    events = pre ++ Invoke t0 args :: mid ++ Fire t h :: post /\
    existsb is_invoke mid = false /\ (t0 + delay <= t)%N.
Proof. apply (debounce_invariant A delay events). Qed.

Lemma debounce_calls_last_invocation_witness :
  exists pre t0 mid h post,
    [Invoke 0%N (str "a"); Invoke 100%N (str "b"); Fire 250%N 1;
     Fire 300%N 2; Fire 350%N 2]
    = pre ++ Invoke t0 (str "b") :: mid ++ Fire 350%N h :: post /\
    existsb is_invoke mid = false /\ (t0 + 250 <= 350)%N.
Proof.
  apply (debounce_calls_last_invocation text 250%N
           [Invoke 0%N (str "a"); Invoke 100%N (str "b"); Fire 250%N 1;
            Fire 300%N 2; Fire 350%N 2] 350%N (str "b")).
  left. reflexivity.
Defined.

(** X24: a debounced function never has more than one timer waiting, calls
    [func] at most once per invocation, counting the waiting timer, and
    after an invocation exactly its own timer waits, due [delay] later. *)
Theorem debounce_one_timer (A : Type) (delay : N) (events : list (event A)) :
  length (waiting (debounce_timers (debounce_run delay events))) <= 1 /\
  length (debounce_calls (debounce_run delay events))
  + length (waiting (debounce_timers (debounce_run delay events)))
  <= length (filter is_invoke events) /\
  forall now args,
    exists h,
      waiting (debounce_timers (debounce_run delay (events ++ [Invoke now args])))
      = [(h, ((now + delay)%N, args))] /\
      debounce_calls (debounce_run delay (events ++ [Invoke now args]))
      = debounce_calls (debounce_run delay events).
Proof.
  destruct (debounce_invariant A delay events) as (Ha & _ & Hn).
  split; [|split; [exact Hn|]].
  - destruct Ha as [Ha|(h & t0 & args & pre & mid & _ & Hw & _)];
      rewrite ?Ha, ?Hw; simpl; lia.
  - intros now args. rewrite debounce_run_snoc.
    cbn [debounce_step setTimeout debounce_timers debounce_calls waiting].
    eexists. split; [|reflexivity].
    destruct Ha as [Ha|(h & t0 & a & pre & mid & Ht & Hw & _)].
    + rewrite (clearTimeout_empty _ _ _ Ha). reflexivity.
    + rewrite Ht, (clearTimeout_single _ _ _ _ Hw). reflexivity.
Qed.

(** X25: every call that [throttle] makes to [func] has the arguments of
    an earlier invocation, and runs at the time of that invocation or at
    least [threshold] later. *)
Theorem throttle_calls_from_invocations (A : Type) (threshold : N)
    (events : list (event A)) t args :
  In (t, args) (throttle_calls (throttle_run threshold events)) ->
  exists pre t0 post,
    events = pre ++ Invoke t0 args :: post /\
    (t = t0 \/ (t0 + threshold <= t)%N).
Proof. apply (throttle_invariant A threshold events). Qed.

Lemma throttle_calls_from_invocations_witness :
  exists pre t0 post,
    [Invoke 10%N (str "a"); Invoke 20%N (str "b"); Fire 270%N 1]
    = pre ++ Invoke t0 (str "b") :: post /\
    (270%N = t0 \/ (t0 + 250 <= 270)%N).
Proof.
  apply (throttle_calls_from_invocations text 250%N
           [Invoke 10%N (str "a"); Invoke 20%N (str "b"); Fire 270%N 1]
           270%N (str "b")).
  right. left. reflexivity.
Defined.

(** X26: a throttled function never has more than one timer waiting, calls
    [func] at most once per invocation, counting the waiting timer, and
    drops no invocation at once: after an invocation either [func] has
    just been called with its arguments or its timer is the one waiting. *)
Theorem throttle_one_timer (A : Type) (threshold : N)
    (events : list (event A)) :
  length (waiting (throttle_timers (throttle_run threshold events))) <= 1 /\
  length (throttle_calls (throttle_run threshold events))
  + length (waiting (throttle_timers (throttle_run threshold events)))
  <= length (filter is_invoke events) /\
  forall now args,
    throttle_calls (throttle_run threshold (events ++ [Invoke now args]))
    = throttle_calls (throttle_run threshold events) ++ [(now, args)] \/
    exists h,
      waiting (throttle_timers
                 (throttle_run threshold (events ++ [Invoke now args])))
      = [(h, ((now + threshold)%N, (now, args)))].
Proof.
  destruct (throttle_invariant A threshold events) as (Ha & _ & Hn).
  split; [|split; [exact Hn|]].
  - destruct Ha as [Ha|(h & t0 & args & pre & mid & _ & Hw & _)];
      rewrite ?Ha, ?Hw; simpl; lia.
  - intros now args. rewrite throttle_run_snoc. cbn [throttle_step].
    destruct (within_threshold _ now threshold); [right|left; reflexivity].
    cbn [setTimeout throttle_timers waiting]. eexists.
    destruct Ha as [Ha|(h & t0 & a & pre & mid & Ht & Hw & _)].
    + rewrite (clearTimeout_empty _ _ _ Ha). reflexivity.
    + rewrite Ht, (clearTimeout_single _ _ _ _ Hw). reflexivity.
Qed.

(** X27: [throttle] does not keep the calls of [func] a threshold apart:
    an invocation that runs at once leaves an earlier timer waiting, so
    for any threshold above one millisecond three invocations in order of
    time lead to two calls one millisecond apart, the later call with the
    arguments of the earlier invocation. *)
Theorem throttle_calls_can_be_close (A : Type) (threshold : N) (a b c : A) :
  (1 < threshold)%N ->
  let events := [Invoke 1%N a; Invoke 2%N b; Invoke (1 + threshold)%N c;
                 Fire (2 + threshold)%N 1] in
  in_order (map event_time events) = true /\
  throttle_calls (throttle_run threshold events)
  = [(1%N, a); ((1 + threshold)%N, c); ((2 + threshold)%N, b)].
Proof.
  intros Hth. cbv zeta. split.
  - cbn [map event_time in_order].
    rewrite !andb_true_r, !andb_true_iff, !N.leb_le. lia.
  - unfold throttle_run. cbn [fold_left throttle_step throttle last_time
      within_threshold defer_timer throttle_timers throttle_calls].
    change (negb (1 =? 0)%N) with true. cbn [andb].
    replace (2 <? 1 + threshold)%N with true by (symmetry; apply N.ltb_lt; lia).
    cbn [clearTimeout setTimeout no_timers waiting next_handle app
         last_time within_threshold defer_timer throttle_timers throttle_calls].
    change (negb (1 =? 0)%N) with true. cbn [andb].
    rewrite N.ltb_irrefl.
    cbn [last_time defer_timer throttle_timers throttle_calls].
    unfold expired. cbn [waiting find fst Nat.eqb].
    rewrite N.leb_refl. reflexivity.
Qed.

Lemma throttle_calls_can_be_close_witness :
  throttle_calls
    (throttle_run 250%N
       [Invoke 1%N (str "a"); Invoke 2%N (str "b"); Invoke 251%N (str "c");
        Fire 252%N 1])
  = [(1%N, str "a"); (251%N, str "c"); (252%N, str "b")].
Proof.
  apply (throttle_calls_can_be_close text 250%N (str "a") (str "b") (str "c")).
  reflexivity.
Defined.
